(** * The to-do list store of [src/app/index.tsx]

    A shallow embedding of the state held by the [App] component (the
    list of todos, the modal's input and the id being edited), of its
    handlers ([handleSave], [handleDelete], [handleToggle], [loadTodos])
    and of the persistence effect, together with the two library functions
    the store relies on ([JSON.stringify] at type [Todo[]] and [JSON.parse]).

    JavaScript strings are sequences of UTF-16 code units; they are modelled
    as lists of [N].  [AsyncStorage] is a finite map from keys to values. *)

From Stdlib Require Import NArith ZArith String Ascii DecimalString.
From Stdlib Require DecimalZ DecimalPos.
From stdpp Require Import base tactics option list gmap.

Local Open Scope N_scope.

(** ** JavaScript strings *)

Module JsString.

(** A string is its sequence of code units. *)
Abbreviation t := (list N) (only parsing).

(** The code units of a literal written in ASCII. *)
Definition of_ascii (s : string) : t :=
  N_of_ascii <$> list_ascii_of_string s.

(** [WhiteSpace] and [LineTerminator] of ECMA-262: what
    [String.prototype.trim] strips. *)
Definition is_white_space (c : N) : bool :=
  (c =? 0x09) || (c =? 0x0A) || (c =? 0x0B) || (c =? 0x0C) || (c =? 0x0D)
  || (c =? 0x20) || (c =? 0xA0) || (c =? 0x1680)
  || ((0x2000 <=? c) && (c <=? 0x200A))
  || (c =? 0x2028) || (c =? 0x2029) || (c =? 0x202F) || (c =? 0x205F)
  || (c =? 0x3000) || (c =? 0xFEFF).

Fixpoint trimStart (s : t) : t :=
  match s with
  | [] => []
  | c :: r => if is_white_space c then trimStart r else s
  end.

Fixpoint trimEnd (s : t) : t :=
  match s with
  | [] => []
  | c :: r =>
      match trimEnd r with
      | [] => if is_white_space c then [] else [c]
      | r' => c :: r'
      end
  end.

(** [s.trim()] *)
Definition trim (s : t) : t := trimEnd (trimStart s).

(** [s.substring(a, b)] for [0 <= a <= b]: both ends are clamped to the
    length of [s]. *)
Definition substring (a b : nat) (s : t) : t := take (b - a) (drop a s).

(** [ToString] of an integral Number of magnitude below 10^21: its decimal
    digits, with a minus sign when negative. *)
Definition of_integer (z : Z) : t :=
  of_ascii (NilZero.string_of_int (Z.to_int z)).

(** [ToBoolean] on a string: only the empty string is falsy. *)
Definition truthy (s : t) : bool :=
  match s with [] => false | _ :: _ => true end.

End JsString.

Abbreviation jsstring := (list N) (only parsing).
Abbreviation js := JsString.of_ascii.

(** ** Data model *)

(** [type Todo = { id: string; text: string; completed: boolean }] *)
Record Todo := mkTodo {
  id : jsstring;
  text : jsstring;
  completed : bool;
}.

#[global] Instance Todo_eq_dec : EqDecision Todo.
Proof. solve_decision. Defined.

(** [const STORAGE_KEY = "BLINK_TODO_LIST_V1"] *)
Definition STORAGE_KEY : jsstring := js "BLINK_TODO_LIST_V1".

(** The readings [uuid] takes from its environment: the text of
    [Math.random().toString(36)] and the integer [Date.now()]. *)
Record Env := mkEnv {
  random36 : jsstring;
  now : Z;
}.

(** [Math.random().toString(36).substring(2, 10) + Date.now()] *)
Definition uuid (e : Env) : jsstring :=
  JsString.substring 2 10 (random36 e) ++ JsString.of_integer (now e).

(** The component state that the handlers read and write:
    [todos], [modalVisible], [input] and [editingId] ([None] is [null]). *)
Record AppState := mkApp {
  todos : list Todo;
  modalVisible : bool;
  input : jsstring;
  editingId : option jsstring;
}.

#[global] Instance AppState_eq_dec : EqDecision AppState.
Proof. solve_decision. Defined.

(** [useState] initial values. *)
Definition initial : AppState :=
  {| todos := []; modalVisible := false; input := []; editingId := None |}.

(** [if (editingId)]: [null] and the empty string are falsy. *)
Definition editing (eid : option jsstring) : bool :=
  match eid with
  | None => false
  | Some s => JsString.truthy s
  end.

(** ** Handlers *)

Definition openAddModal (st : AppState) : AppState :=
  {| todos := todos st; modalVisible := true; input := []; editingId := None |}.

Definition openEditModal (todo : Todo) (st : AppState) : AppState :=
  {| todos := todos st; modalVisible := true; input := text todo;
     editingId := Some (id todo) |}.

(** [prev.map((t) => t.id === editingId ? { ...t, text: input.trim() } : t)] *)
Definition edit_text (eid newText : jsstring) (prev : list Todo) : list Todo :=
  (λ t, if bool_decide (id t = eid)
        then {| id := id t; text := newText; completed := completed t |}
        else t) <$> prev.

(** [[{ id: uuid(), text: input.trim(), completed: false }, ...prev]] *)
Definition prepend_new (newId newText : jsstring) (prev : list Todo) : list Todo :=
  {| id := newId; text := newText; completed := false |} :: prev.

Definition handleSave (e : Env) (st : AppState) : AppState :=
  if bool_decide (JsString.trim (input st) = []) then st
  else
    {| todos :=
         match editingId st with
         | Some eid =>
             if JsString.truthy eid
             then edit_text eid (JsString.trim (input st)) (todos st)
             else prepend_new (uuid e) (JsString.trim (input st)) (todos st)
         | None => prepend_new (uuid e) (JsString.trim (input st)) (todos st)
         end;
       modalVisible := false;
       input := [];
       editingId := None |}.

(** [prev.filter((t) => t.id !== id)] *)
Definition remove_id (i : jsstring) (prev : list Todo) : list Todo :=
  filter (λ t, id t ≠ i) prev.

Definition handleDelete (i : jsstring) (st : AppState) : AppState :=
  {| todos := remove_id i (todos st); modalVisible := modalVisible st;
     input := input st; editingId := editingId st |}.

(** [prev.map((t) => t.id === id ? { ...t, completed: !t.completed } : t)] *)
Definition flip_completed (i : jsstring) (prev : list Todo) : list Todo :=
  (λ t, if bool_decide (id t = i)
        then {| id := id t; text := text t; completed := negb (completed t) |}
        else t) <$> prev.

Definition handleToggle (i : jsstring) (st : AppState) : AppState :=
  {| todos := flip_completed i (todos st); modalVisible := modalVisible st;
     input := input st; editingId := editingId st |}.

(** ** JSON

    [JSON.stringify] and [JSON.parse] of ECMA-262, on code units.  A parsed
    object keeps its members as written, in the order of the text: of the
    members of a repeated key JavaScript keeps the last as the property,
    which is how the object is read ([lookup_last] below).  A number keeps
    its lexeme, which stands for the Number that it denotes.

    The code units that the grammar names: 34 the double quote, 92 the
    backslash, 47 the slash, 44 the comma, 58 the colon, 91 and 93 the square
    brackets, 123 and 125 the braces, 45 the minus sign, 43 the plus sign,
    46 the dot, 48 to 57 the digits, 101 and 69 the letter e, 117 the letter
    u, and 98, 102, 110, 114, 116 the letters b, f, n, r, t. *)

Module JSON.

#[warnings="-register-all"]
Inductive value :=
| JNull
| JBool (b : bool)
| JNumber (lexeme : jsstring)
| JString (s : jsstring)
| JArray (elements : list value)
| JObject (members : list (jsstring * value)).

(** *** Serialization *)

Definition is_leading_surrogate (c : N) : bool := (0xD800 <=? c) && (c <=? 0xDBFF).
Definition is_trailing_surrogate (c : N) : bool := (0xDC00 <=? c) && (c <=? 0xDFFF).

(** Lower-case hexadecimal digit of [d < 16]. *)
Definition hex_digit (d : N) : N := if d <? 10 then 48 + d else 87 + d.

(** [UnicodeEscape]: a backslash, [u] and four hexadecimal digits. *)
Definition UnicodeEscape (c : N) : jsstring :=
  [92; 117; hex_digit (c / 4096 mod 16); hex_digit (c / 256 mod 16);
   hex_digit (c / 16 mod 16); hex_digit (c mod 16)].

(** One code point that is not a surrogate pair, as [QuoteJSONString]
    writes it. *)
Definition quote_unit (c : N) : jsstring :=
  if c =? 8 then [92; 98]
  else if c =? 9 then [92; 116]
  else if c =? 10 then [92; 110]
  else if c =? 12 then [92; 102]
  else if c =? 13 then [92; 114]
  else if c =? 34 then [92; 34]
  else if c =? 92 then [92; 92]
  else if (c <? 32) || is_leading_surrogate c || is_trailing_surrogate c
       then UnicodeEscape c
  else [c].

(** The string is read by code points: a leading surrogate followed by a
    trailing one is a pair and is written as it is. *)
Fixpoint quote_units (s : jsstring) : jsstring :=
  match s with
  | [] => []
  | c1 :: tl =>
      match tl with
      | c2 :: rest =>
          if is_leading_surrogate c1 && is_trailing_surrogate c2
          then c1 :: c2 :: quote_units rest
          else quote_unit c1 ++ quote_units tl
      | [] => quote_unit c1
      end
  end.

Definition QuoteJSONString (s : jsstring) : jsstring :=
  34 :: quote_units s ++ [34].

(** Elements separated by commas. *)
Fixpoint join_comma (parts : list jsstring) : jsstring :=
  match parts with
  | [] => []
  | p :: ps =>
      match ps with
      | [] => p
      | _ :: _ => p ++ 44 :: join_comma ps
      end
  end.

(** [SerializeJSONProperty] without indentation, as [JSON.stringify(v)]
    with one argument runs it.  (The store holds no number.) *)
Fixpoint serialize (v : value) : jsstring :=
  match v with
  | JNull => js "null"
  | JBool b => if b then js "true" else js "false"
  | JNumber lexeme => lexeme
  | JString s => QuoteJSONString s
  | JArray vs => 91 :: join_comma (serialize <$> vs) ++ [93]
  | JObject ms =>
      123 :: join_comma ((λ m, QuoteJSONString m.1 ++ 58 :: serialize m.2) <$> ms)
          ++ [125]
  end.

(** *** Parsing *)

Definition is_ws (c : N) : bool :=
  (c =? 0x20) || (c =? 0x09) || (c =? 0x0A) || (c =? 0x0D).

Fixpoint skip_ws (s : jsstring) : jsstring :=
  match s with
  | [] => []
  | c :: r => if is_ws c then skip_ws r else s
  end.

Definition hex_value (c : N) : option N :=
  if (48 <=? c) && (c <=? 57) then Some (c - 48)
  else if (97 <=? c) && (c <=? 102) then Some (c - 87)
  else if (65 <=? c) && (c <=? 70) then Some (c - 55)
  else None.

Definition hex4 (h1 h2 h3 h4 : N) : option N :=
  d1 ← hex_value h1; d2 ← hex_value h2; d3 ← hex_value h3; d4 ← hex_value h4;
  Some (4096 * d1 + 256 * d2 + 16 * d3 + d4).

(** The character after a backslash, other than [u]. *)
Definition unescape (e : N) : option N :=
  if e =? 34 then Some 34
  else if e =? 92 then Some 92
  else if e =? 47 then Some 47
  else if e =? 98 then Some 8
  else if e =? 102 then Some 12
  else if e =? 110 then Some 10
  else if e =? 114 then Some 13
  else if e =? 116 then Some 9
  else None.

Definition push (c : N) (r : option (jsstring * jsstring)) :
  option (jsstring * jsstring) :=
  '(s, rest) ← r; Some (c :: s, rest).

(** The characters of a string, after its opening quote, up to and
    including the closing quote. *)
Fixpoint parse_chars (s : jsstring) : option (jsstring * jsstring) :=
  match s with
  | [] => None
  | c :: r =>
      if c =? 34 then Some ([], r)
      else if c =? 92 then
        match r with
        | [] => None
        | e :: r1 =>
            if e =? 117 then
              match r1 with
              | h1 :: h2 :: h3 :: h4 :: r2 =>
                  match hex4 h1 h2 h3 h4 with
                  | Some u => push u (parse_chars r2)
                  | None => None
                  end
              | _ => None
              end
            else
              match unescape e with
              | Some u => push u (parse_chars r1)
              | None => None
              end
        end
      else if c <? 32 then None
      else push c (parse_chars r)
  end.

Definition is_digit (c : N) : bool := (48 <=? c) && (c <=? 57).

(** The longest prefix of digits, and what follows it. *)
Fixpoint digits (s : jsstring) : jsstring * jsstring :=
  match s with
  | [] => ([], [])
  | c :: r =>
      if is_digit c then let '(ds, r') := digits r in (c :: ds, r')
      else ([], s)
  end.

Definition digits1 (s : jsstring) : option (jsstring * jsstring) :=
  match digits s with
  | ([], _) => None
  | (ds, r) => Some (ds, r)
  end.

(** A number: an optional minus sign; a zero, or a non-zero digit and
    digits; an optional fraction (a dot and one or more digits); an optional
    exponent ([e] or [E], an optional sign, one or more digits). *)
Definition parse_number (s : jsstring) : option (jsstring * jsstring) :=
  let '(sign, s1) :=
    match s with
    | c :: r => if c =? 45 then ([45], r) else ([], s)
    | [] => ([], s)
    end in
  '(int, s2) ←
    match s1 with
    | c :: r =>
        if c =? 48 then Some ([48], r)
        else if is_digit c then let '(ds, r') := digits r in Some (c :: ds, r')
        else None
    | [] => None
    end;
  '(frac, s3) ←
    match s2 with
    | c :: r =>
        if c =? 46 then '(ds, r') ← digits1 r; Some (46 :: ds, r')
        else Some ([], s2)
    | [] => Some ([], s2)
    end;
  '(exp, s4) ←
    match s3 with
    | c :: r =>
        if (c =? 101) || (c =? 69) then
          let '(esign, r1) :=
            match r with
            | c' :: r' =>
                if (c' =? 43) || (c' =? 45) then ([c'], r') else ([], r)
            | [] => ([], r)
            end in
          '(ds, r2) ← digits1 r1; Some (c :: esign ++ ds, r2)
        else Some ([], s3)
    | [] => Some ([], s3)
    end;
  Some (sign ++ int ++ frac ++ exp, s4).

Fixpoint strip_prefix (p s : jsstring) : option jsstring :=
  match p with
  | [] => Some s
  | c :: p' =>
      match s with
      | c' :: s' => if c =? c' then strip_prefix p' s' else None
      | [] => None
      end
  end.

Section Loops.
(** The parser of one value, which skips the white space before it. *)
Variable element : jsstring -> option (value * jsstring).

(** [element (, element)* ]], at most [n] elements. *)
Fixpoint parse_elements (n : nat) (s : jsstring) : option (list value * jsstring) :=
  match n with
  | O => None
  | S n' =>
      '(v, r) ← element s;
      match skip_ws r with
      | c :: r' =>
          if c =? 44 then
            '(vs, r'') ← parse_elements n' r'; Some (v :: vs, r'')
          else if c =? 93 then Some ([v], r')
          else None
      | [] => None
      end
  end.

(** [member (, member)* }], at most [n] members. *)
Fixpoint parse_members (n : nat) (s : jsstring) :
  option (list (jsstring * value) * jsstring) :=
  match n with
  | O => None
  | S n' =>
      match skip_ws s with
      | q :: r0 =>
          if q =? 34 then
            '(k, r1) ← parse_chars r0;
            match skip_ws r1 with
            | colon :: r2 =>
                if colon =? 58 then
                  '(v, r3) ← element r2;
                  match skip_ws r3 with
                  | c :: r4 =>
                      if c =? 44 then
                        '(ms, r5) ← parse_members n' r4; Some ((k, v) :: ms, r5)
                      else if c =? 125 then Some ([(k, v)], r4)
                      else None
                  | [] => None
                  end
                else None
            | [] => None
            end
          else None
      | [] => None
      end
  end.
End Loops.

(** One value; [fuel] bounds the nesting depth. *)
Fixpoint parse_value (fuel : nat) (s : jsstring) : option (value * jsstring) :=
  match fuel with
  | O => None
  | S f =>
      match skip_ws s with
      | [] => None
      | c :: r =>
          if c =? 34 then
            '(str, r') ← parse_chars r; Some (JString str, r')
          else if c =? 91 then
            match skip_ws r with
            | c' :: r' =>
                if c' =? 93 then Some (JArray [], r')
                else '(vs, r'') ← parse_elements (parse_value f) (length r) r;
                     Some (JArray vs, r'')
            | [] => None
            end
          else if c =? 123 then
            match skip_ws r with
            | c' :: r' =>
                if c' =? 125 then Some (JObject [], r')
                else '(ms, r'') ← parse_members (parse_value f) (length r) r;
                     Some (JObject ms, r'')
            | [] => None
            end
          else if c =? 116 then
            r' ← strip_prefix (js "rue") r; Some (JBool true, r')
          else if c =? 102 then
            r' ← strip_prefix (js "alse") r; Some (JBool false, r')
          else if c =? 110 then
            r' ← strip_prefix (js "ull") r; Some (JNull, r')
          else
            '(lexeme, r') ← parse_number (c :: r); Some (JNumber lexeme, r')
      end
  end.

(** [JSON.parse(text)]: one value between optional white space; [None] is
    the [SyntaxError].  The nesting depth of a text is below its length. *)
Definition parse (text : jsstring) : option value :=
  '(v, r) ← parse_value (S (length text)) text;
  match skip_ws r with
  | [] => Some v
  | _ :: _ => None
  end.

(** A parser that, when it succeeds, has read at least one code unit. *)
Definition consuming (p : jsstring -> option (value * jsstring)) : Prop :=
  ∀ s v r, p s = Some (v, r) -> (length r < length s)%nat.

(** The values without a number: strings, booleans, [null], and arrays and
    objects of such values. *)
Fixpoint number_free (v : value) : bool :=
  match v with
  | JNumber _ => false
  | JArray vs => forallb number_free vs
  | JObject ms => forallb (λ m, number_free m.2) ms
  | _ => true
  end.

(** The nesting depth of a value, a scalar counting for one. *)
Fixpoint depth (v : value) : nat :=
  match v with
  | JArray vs => S (max_list_with depth vs)
  | JObject ms => S (max_list_with (λ m, depth m.2) ms)
  | _ => 1
  end.

End JSON.

(** ** The store and its persistence *)

(** The JavaScript value of a [Todo]: an object with the properties [id],
    [text] and [completed], in the order in which [handleSave] creates them
    (the spreads of [handleSave] and [handleToggle] keep it). *)
Definition json_of_todo (t : Todo) : JSON.value :=
  JSON.JObject [(js "id", JSON.JString (id t));
                (js "text", JSON.JString (text t));
                (js "completed", JSON.JBool (completed t))].

Definition json_of_todos (l : list Todo) : JSON.value :=
  JSON.JArray (json_of_todo <$> l).

(** The values that are a [Todo] of this shape, the one that the
    persistence effect writes.  (An object that holds the three properties in
    another order, or more than these, is a task as well: [task_view] reads
    it; it is not of this shape.) *)
Definition as_todo (v : JSON.value) : option Todo :=
  match v with
  | JSON.JObject [(k1, JSON.JString i); (k2, JSON.JString t); (k3, JSON.JBool c)] =>
      if bool_decide (k1 = js "id" ∧ k2 = js "text" ∧ k3 = js "completed")
      then Some {| id := i; text := t; completed := c |}
      else None
  | _ => None
  end.

Definition as_todos (v : JSON.value) : option (list Todo) :=
  match v with
  | JSON.JArray vs => mapM as_todo vs
  | _ => None
  end.

(** [JSON.stringify(todos)] *)
Definition JSON_stringify (l : list Todo) : jsstring :=
  JSON.serialize (json_of_todos l).

(** [JSON.parse(data)] read at the type [Todo[]]. *)
Definition deserialize (data : jsstring) : option (list Todo) :=
  JSON.parse data ≫= as_todos.

(** What [setTodos(JSON.parse(data))] stores.  The assignment is unchecked:
    a value that is not an array of todos of the shape above is stored all
    the same, and is kept here as it is. *)
Inductive Loaded :=
| Typed (l : list Todo)
| Untyped (v : JSON.value).

Definition loaded_of_json (v : JSON.value) : Loaded :=
  match as_todos v with
  | Some l => Typed l
  | None => Untyped v
  end.

(** [AsyncStorage]: the values stored under each key. *)
Abbreviation Storage := (gmap (list N) (list N)) (only parsing).

(** How [await AsyncStorage.getItem(key)] ends: the promise is rejected, or
    it resolves to [null] or to the stored string. *)
Inductive ReadResult :=
| Rejected
| Resolved (data : option jsstring).

Definition getItem (key : jsstring) (storage : Storage) : ReadResult :=
  Resolved (storage !! key).

(** [AsyncStorage.setItem(key, value)] *)
Definition setItem (key value : jsstring) (storage : Storage) : Storage :=
  <[key := value]> storage.

(** The body of [loadTodos], given the outcome of the read and the list held
    before: every exception is swallowed, and [setTodos] runs only for a
    truthy [data] that parses. *)
Definition loadTodos_from (r : ReadResult) (prev : list Todo) : Loaded :=
  match r with
  | Rejected => Typed prev
  | Resolved None => Typed prev
  | Resolved (Some data) =>
      if JsString.truthy data then
        match JSON.parse data with
        | Some v => loaded_of_json v
        | None => Typed prev
        end
      else Typed prev
  end.

(** [loadTodos] as the mount effect runs it: on the initial, empty list. *)
Definition loadTodos (storage : Storage) : Loaded :=
  loadTodos_from (getItem STORAGE_KEY storage) (todos initial).

(** The persistence effect:
    [AsyncStorage.setItem(STORAGE_KEY, JSON.stringify(todos))]. *)
Definition persist (l : list Todo) (storage : Storage) : Storage :=
  setItem STORAGE_KEY (JSON_stringify l) storage.

(** ** The operations of the store, as the handlers implement them *)

(** Create: [handleSave] with the modal opened by [openAddModal] and [s]
    typed in. *)
Definition Create (e : Env) (s : jsstring) (l : list Todo) : list Todo :=
  todos (handleSave e
    {| todos := l; modalVisible := true; input := s; editingId := None |}).

(** Edit: [handleSave] with [editingId] set to [i] and [s] typed in. *)
Definition Edit (e : Env) (i s : jsstring) (l : list Todo) : list Todo :=
  todos (handleSave e
    {| todos := l; modalVisible := true; input := s; editingId := Some i |}).

Definition Toggle (i : jsstring) (l : list Todo) : list Todo := flip_completed i l.

Definition Delete (i : jsstring) (l : list Todo) : list Todo := remove_id i l.

(** The lists the application builds from the empty list. *)
Inductive reachable : list Todo -> Prop :=
| reachable_empty : reachable []
| reachable_Create e s l : reachable l -> reachable (Create e s l)
| reachable_Edit e i s l : reachable l -> reachable (Edit e i s l)
| reachable_Toggle i l : reachable l -> reachable (Toggle i l)
| reachable_Delete i l : reachable l -> reachable (Delete i l).

(** The invariants of the data model: one todo per id, no empty text. *)
Definition distinct_ids (l : list Todo) : Prop := NoDup (id <$> l).

Definition store_inv (l : list Todo) : Prop :=
  distinct_ids l ∧ Forall (λ t, text t ≠ []) l.

(** ** What the component renders *)

(** The keys of the rows of the list: [keyExtractor={(item) => item.id}]. *)
Definition listKeys (st : AppState) : list jsstring := id <$> todos st.

(** [editingId ? "Edit Todo" : "Add Todo"] *)
Definition modalTitle (st : AppState) : jsstring :=
  if editing (editingId st) then js "Edit Todo" else js "Add Todo".

(** [editingId ? "Save" : "Add"] *)
Definition saveLabel (st : AppState) : jsstring :=
  if editing (editingId st) then js "Save" else js "Add".

(** [disabled={!input.trim()}] on the save button. *)
Definition saveDisabled (st : AppState) : bool :=
  negb (JsString.truthy (JsString.trim (input st))).

(** ** Events *)

(** [onChangeText={setInput}] *)
Definition setInput (s : jsstring) (st : AppState) : AppState :=
  {| todos := todos st; modalVisible := modalVisible st; input := s;
     editingId := editingId st |}.

(** [setModalVisible(false)], of the cancel button and of [onRequestClose]:
    the input and [editingId] stay as they are. *)
Definition closeModal (st : AppState) : AppState :=
  {| todos := todos st; modalVisible := false; input := input st;
     editingId := editingId st |}.

(** What the user can do.  The rows pass their own todo to the handlers;
    a save carries the readings that [uuid] would take. *)
Inductive Event :=
| PressAdd
| PressEdit (item : Todo)
| PressToggle (item : Todo)
| PressDelete (item : Todo)
| ChangeText (s : jsstring)
| SubmitEditing (e : Env)
| PressSave (e : Env)
| PressCancel
| RequestClose.

(** The handler that each event runs.  A disabled button does not call its
    [onPress]. *)
Definition dispatch (ev : Event) (st : AppState) : AppState :=
  match ev with
  | PressAdd => openAddModal st
  | PressEdit item => openEditModal item st
  | PressToggle item => handleToggle (id item) st
  | PressDelete item => handleDelete (id item) st
  | ChangeText s => setInput s st
  | SubmitEditing e => handleSave e st
  | PressSave e => if saveDisabled st then st else handleSave e st
  | PressCancel => closeModal st
  | RequestClose => closeModal st
  end.

(** Whether the handler calls [setTodos].  Its updaters build a new array
    each time, so the effect on [[todos]] runs exactly then. *)
Definition sets_todos (ev : Event) (st : AppState) : bool :=
  match ev with
  | PressToggle _ | PressDelete _ => true
  | SubmitEditing _ | PressSave _ =>
      negb (bool_decide (JsString.trim (input st) = []))
  | _ => false
  end.

(** One event: the handler, then the persistence effect when [todos] was
    set. *)
Definition step (ev : Event) (w : AppState * gmap (list N) (list N)) :
  AppState * gmap (list N) (list N) :=
  let st' := dispatch ev w.1 in
  (st', if sets_todos ev w.1 then persist (todos st') w.2 else w.2).

Definition run (evs : list Event) (w : AppState * gmap (list N) (list N)) :
  AppState * gmap (list N) (list N) :=
  foldl (λ w ev, step ev w) w evs.

(** The stored text is the serialization of the list in memory. *)
Definition in_sync (w : AppState * gmap (list N) (list N)) : Prop :=
  w.2 !! STORAGE_KEY = Some (JSON_stringify (todos w.1)).

(** The value that [loadTodos] passes to [setTodos], when it calls it. *)
Definition loadTodos_sets (r : ReadResult) : option JSON.value :=
  match r with
  | Resolved (Some data) => if JsString.truthy data then JSON.parse data else None
  | _ => None
  end.

(** Mounting: the effect on [[todos]] persists the initial, empty list; when
    the read issued by [loadTodos] ends with outcome [r] and a list is set,
    the effect persists that list.  [None] when what is set is not a list of
    todos of the shape that the effect writes: the state is then a value
    that [AppState] does not hold. *)
Definition mount (r : ReadResult) (storage : gmap (list N) (list N)) :
  option (AppState * gmap (list N) (list N)) :=
  let written := persist (todos initial) storage in
  match loadTodos_sets r with
  | None => Some (initial, written)
  | Some v =>
      match as_todos v with
      | Some l =>
          Some ({| todos := l; modalVisible := modalVisible initial;
                   input := input initial; editingId := editingId initial |},
                persist l written)
      | None => None
      end
  end.

(** The ids generated along a run: each save that adds a todo is given an
    id that the list does not hold. *)
Definition fresh_for (ev : Event) (st : AppState) : Prop :=
  match ev with
  | SubmitEditing e | PressSave e =>
      editing (editingId st) = false -> uuid e ∉ id <$> todos st
  | _ => True
  end.

Fixpoint fresh_run (evs : list Event) (st : AppState) : Prop :=
  match evs with
  | [] => True
  | ev :: evs' => fresh_for ev st ∧ fresh_run evs' (dispatch ev st)
  end.

(** What every todo made by [handleSave] satisfies: its id is not empty,
    its text is not empty and is its own trim. *)
Definition tidy (t : Todo) : Prop :=
  id t ≠ [] ∧ text t ≠ [] ∧ JsString.trim (text t) = text t.

(** ** A value read as a list of tasks *)





(** A text written with single quotes in the place of double quotes. *)
Definition blob (s : string) : jsstring :=
  (λ c, if c =? 39 then 34 else c) <$> js s.

(** * Properties *)

Example trim_example :
  JsString.trim (js "  Buy milk ") = js "Buy milk".
Proof. reflexivity. Qed.

Example uuid_example :
  uuid {| random36 := js "0.4fzyo82mvyr"; now := 1700000000000 |}
  = js "4fzyo82m1700000000000".
Proof. vm_compute. reflexivity. Qed.

Example stringify_example :
  JSON_stringify [ {| id := js "a1"; text := blob "say 'hi'"; completed := true |} ]
  = blob "[{'id':'a1','text':'say \'hi\'','completed':true}]".
Proof. vm_compute. reflexivity. Qed.

Example parse_example :
  deserialize (blob " [ {'id':'aA1', 'text' : 'x\u0041','completed':false} ] ")
  = Some [ {| id := js "aA1"; text := js "xA"; completed := false |} ].
Proof. vm_compute. reflexivity. Qed.

Example parse_number_example :
  JSON.parse (js "[-12.5e+3,0,null]")
  = Some (JSON.JArray [JSON.JNumber (js "-12.5e+3"); JSON.JNumber (js "0"); JSON.JNull]).
Proof. vm_compute. reflexivity. Qed.

(** The scenario of the specification: two creations, a toggle and a
    deletion. *)
Example scenario :
  let e1 := {| random36 := js "0.4fzyo82mvyr"; now := 1700000000000 |} in
  let e2 := {| random36 := js "0.k3x9q"; now := 1700000000123 |} in
  let l1 := Create e1 (js "Buy milk") [] in
  let l2 := Create e2 (js "Walk dog") l1 in
  let l3 := Toggle (uuid e1) l2 in
  let l4 := Delete (uuid e2) l3 in
  (text <$> l2) = [js "Walk dog"; js "Buy milk"]
  ∧ (completed <$> l3) = [false; true]
  ∧ l4 = [ {| id := uuid e1; text := js "Buy milk"; completed := true |} ].
Proof. vm_compute. done. Qed.

Example parse_rejects :
  JSON.parse (js "[1,]") = None ∧ JSON.parse (blob "{'a':01}") = None
  ∧ JSON.parse [] = None ∧ JSON.parse (js "[1] x") = None.
Proof. vm_compute. done. Qed.

(** ** Mapping and filtering by id *)

Section ById.
Context (f : Todo -> Todo) (i : jsstring).
Hypothesis f_id : ∀ t, id (f t) = id t.

Let upd (l : list Todo) : list Todo :=
  (λ t, if bool_decide (id t = i) then f t else t) <$> l.

Lemma upd_lookup l k t :
  l !! k = Some t ->
  upd l !! k = Some (if bool_decide (id t = i) then f t else t).
Proof. intros H. unfold upd. by rewrite list_lookup_fmap, H. Qed.

Lemma upd_ids l : id <$> upd l = id <$> l.
Proof.
  unfold upd. rewrite <- list_fmap_compose. apply list_fmap_ext.
  intros _ t _. simpl. case_bool_decide; auto.
Qed.

Lemma upd_absent l : i ∉ id <$> l -> upd l = l.
Proof.
  intros H. unfold upd. rewrite <- (list_fmap_id l) at 2.
  apply list_fmap_ext. intros _ t Ht%list_elem_of_lookup_2.
  case_bool_decide as E; [|done].
  exfalso. apply H. rewrite <- E. by apply list_elem_of_fmap_2.
Qed.

Lemma upd_split l1 t l2 :
  NoDup (id <$> (l1 ++ t :: l2)) -> id t = i ->
  upd (l1 ++ t :: l2) = l1 ++ f t :: l2.
Proof.
  intros Hnd Hi. rewrite fmap_app, fmap_cons in Hnd.
  apply NoDup_app in Hnd as (_ & Hl1 & Hnd).
  apply NoDup_cons in Hnd as (Hl2 & _).
  unfold upd. rewrite fmap_app, fmap_cons.
  rewrite bool_decide_eq_true_2 by done.
  fold (upd l1). fold (upd l2).
  rewrite !upd_absent; [done| |].
  - by rewrite <- Hi.
  - intros Hin. apply (Hl1 _ Hin). rewrite Hi. left.
Qed.

Lemma upd_changes_once l k k' :
  NoDup (id <$> l) -> upd l !! k ≠ l !! k -> upd l !! k' ≠ l !! k' -> k = k'.
Proof.
  intros Hnd Hk Hk'.
  destruct (l !! k) as [t|] eqn:Et.
  2:{ exfalso. apply Hk. unfold upd. by rewrite list_lookup_fmap, Et. }
  destruct (l !! k') as [t'|] eqn:Et'.
  2:{ exfalso. apply Hk'. unfold upd. by rewrite list_lookup_fmap, Et'. }
  rewrite (upd_lookup _ _ _ Et) in Hk. rewrite (upd_lookup _ _ _ Et') in Hk'.
  case_bool_decide as E; [|done]. case_bool_decide as E'; [|done].
  eapply NoDup_lookup; [exact Hnd| |].
  - rewrite list_lookup_fmap, Et. reflexivity.
  - rewrite list_lookup_fmap, Et'. simpl. congruence.
Qed.

End ById.

Lemma remove_id_absent i l : i ∉ id <$> l -> remove_id i l = l.
Proof.
  intros H. unfold remove_id. induction l as [|t l IH]; [done|].
  rewrite fmap_cons in H. apply not_elem_of_cons in H as [Hne Hl].
  rewrite filter_cons_True by done. by rewrite IH.
Qed.

Lemma remove_id_split l1 t l2 :
  NoDup (id <$> (l1 ++ t :: l2)) ->
  remove_id (id t) (l1 ++ t :: l2) = l1 ++ l2.
Proof.
  intros Hnd. rewrite fmap_app, fmap_cons in Hnd.
  apply NoDup_app in Hnd as (_ & Hl1 & Hnd).
  apply NoDup_cons in Hnd as (Hl2 & _).
  unfold remove_id. rewrite filter_app, filter_cons_False by (intros H; by apply H).
  fold (remove_id (id t) l1). fold (remove_id (id t) l2).
  rewrite !remove_id_absent; [done|done|].
  intros Hin. apply (Hl1 _ Hin). left.
Qed.

Lemma remove_id_all i l : Forall (λ t, id t ≠ i) (remove_id i l).
Proof.
  apply Forall_forall. intros t Ht. unfold remove_id in Ht.
  by apply list_elem_of_filter in Ht as [? _].
Qed.

Lemma filter_id_absent i l :
  i ∉ id <$> l -> filter (λ t, id t = i) l = [].
Proof.
  induction l as [|t l IH]; intros H; [done|].
  rewrite fmap_cons in H. apply not_elem_of_cons in H as [Hne Hl].
  rewrite filter_cons_False by (intros E; by apply Hne). auto.
Qed.

Lemma addressed_at_most_one i l :
  NoDup (id <$> l) -> (length (filter (λ t, id t = i) l) <= 1)%nat.
Proof.
  induction l as [|t l IH]; intros Hnd; [simpl; lia|].
  rewrite fmap_cons in Hnd. apply NoDup_cons in Hnd as [Hnotin Hnd].
  destruct (decide (id t = i)) as [E|E].
  - rewrite filter_cons_True by done. simpl.
    rewrite filter_id_absent by (by rewrite <- E). simpl. lia.
  - rewrite filter_cons_False by done. auto.
Qed.

(** ** The handlers on the list *)

Lemma handleSave_blank e st :
  JsString.trim (input st) = [] -> handleSave e st = st.
Proof. intros H. unfold handleSave. by rewrite bool_decide_eq_true_2. Qed.

Lemma handleSave_create e st :
  editing (editingId st) = false ->
  JsString.trim (input st) ≠ [] ->
  todos (handleSave e st)
  = {| id := uuid e; text := JsString.trim (input st); completed := false |}
    :: todos st.
Proof.
  intros Hmode Hs. unfold handleSave. rewrite bool_decide_eq_false_2 by done.
  simpl. destruct (editingId st) as [eid|]; [|done].
  simpl in Hmode. by rewrite Hmode.
Qed.

Lemma handleSave_edit e st eid :
  editingId st = Some eid -> eid ≠ [] ->
  JsString.trim (input st) ≠ [] ->
  todos (handleSave e st) = edit_text eid (JsString.trim (input st)) (todos st).
Proof.
  intros Hid Hne Hs. unfold handleSave. rewrite bool_decide_eq_false_2 by done.
  simpl. rewrite Hid. by destruct eid.
Qed.

Lemma Edit_edit_text e i s l :
  i ≠ [] -> JsString.trim s ≠ [] -> Edit e i s l = edit_text i (JsString.trim s) l.
Proof. intros Hi Hs. unfold Edit. by rewrite (handleSave_edit _ _ i). Qed.

Lemma Create_cons e s l :
  JsString.trim s ≠ [] -> Create e s l = prepend_new (uuid e) (JsString.trim s) l.
Proof. intros Hs. unfold Create. by rewrite handleSave_create. Qed.

Lemma Edit_empty_id e s l : Edit e [] s l = Create e s l.
Proof. unfold Edit, Create, handleSave. simpl. by case_bool_decide. Qed.

Lemma uuid_nonempty e : uuid e ≠ [].
Proof.
  unfold uuid, JsString.of_integer. intros H.
  apply app_eq_nil in H as [_ H]. revert H.
  destruct (Z.to_int (now e)) as [d|d]; [|done].
  simpl. destruct d; try done.
Qed.

(** No todo that the application builds has the empty id. *)
Lemma reachable_ids_nonempty l : reachable l -> Forall (λ t, id t ≠ []) l.
Proof.
  assert (HC : ∀ e s l, Forall (λ t, id t ≠ []) l ->
                        Forall (λ t, id t ≠ []) (Create e s l)).
  { intros e s l' H. destruct (decide (JsString.trim s = [])) as [Hs|Hs].
    - unfold Create. by rewrite handleSave_blank.
    - rewrite Create_cons by done. apply Forall_cons. split; [|done].
      apply uuid_nonempty. }
  induction 1 as [|e s l _ IH|e i s l _ IH|i l _ IH|i l _ IH].
  - constructor.
  - by apply HC.
  - destruct i as [|c i']; [rewrite Edit_empty_id; by apply HC|].
    destruct (decide (JsString.trim s = [])) as [Hs|Hs].
    + unfold Edit. by rewrite handleSave_blank.
    + rewrite Edit_edit_text by done. unfold edit_text.
      apply Forall_fmap. eapply Forall_impl; [exact IH|].
      intros t Ht. simpl. by case_bool_decide.
  - unfold Toggle, flip_completed.
    apply Forall_fmap. eapply Forall_impl; [exact IH|].
    intros t Ht. simpl. by case_bool_decide.
  - unfold Delete, remove_id. apply Forall_forall.
    intros t [_ Ht]%list_elem_of_filter.
    by apply (proj1 (Forall_forall _ _) IH).
Qed.

(** C2: for every list and every string [s] whose trim is not empty,
    Create(s) yields the list whose first element is the new todo, with
    text [s.trim()], [completed] false and the id [uuid()] returned, and
    whose other elements are the prior list in its order. *)
Theorem Create_prepends (e : Env) (s : jsstring) (l : list Todo) :
  JsString.trim s ≠ [] ->
  Create e s l
  = {| id := uuid e; text := JsString.trim s; completed := false |} :: l.
Proof.
  intros Hs. unfold Create, handleSave. cbn [input editingId todos].
  rewrite bool_decide_eq_false_2 by done. reflexivity.
Qed.

Lemma Create_prepends_witness :
  Create {| random36 := js "0.4fzyo82mvyr"; now := 1700000000000 |}
         (js "  Walk dog ")
         [ {| id := js "m1"; text := js "Buy milk"; completed := true |} ]
  = [ {| id := js "4fzyo82m1700000000000"; text := js "Walk dog";
         completed := false |};
      {| id := js "m1"; text := js "Buy milk"; completed := true |} ].
Proof.
  exact (Create_prepends
           {| random36 := js "0.4fzyo82mvyr"; now := 1700000000000 |}
           (js "  Walk dog ")
           [ {| id := js "m1"; text := js "Buy milk"; completed := true |} ]
           ltac:(vm_compute; discriminate)).
Defined.

(** C3, as amended: for every list with pairwise distinct ids, every
    non-empty id and every string whose trim is not empty, Edit replaces
    the text of the todo with that id by the trimmed string, keeps its id,
    its [completed] flag and its position, and keeps every other todo and the
    order; when no todo has that id the list is unchanged. *)
Theorem Edit_changes_only_text (e : Env) (i s : jsstring) (l : list Todo) :
  i ≠ [] -> distinct_ids l -> JsString.trim s ≠ [] ->
  (∀ t, t ∈ l -> id t = i ->
     ∃ l1 l2, l = l1 ++ t :: l2
       ∧ Edit e i s l
         = l1 ++ {| id := id t; text := JsString.trim s;
                    completed := completed t |} :: l2)
  ∧ (i ∉ id <$> l -> Edit e i s l = l).
Proof.
  intros Hi Hnd Hs. rewrite Edit_edit_text by done. split.
  - intros t Ht Hid. apply list_elem_of_split in Ht as (l1 & l2 & ->).
    exists l1, l2. split; [done|]. unfold edit_text.
    by rewrite (upd_split (λ t, {| id := id t; text := JsString.trim s;
                                   completed := completed t |})).
  - intros Hnot. unfold edit_text.
    by rewrite (upd_absent (λ t, {| id := id t; text := JsString.trim s;
                                    completed := completed t |})).
Qed.

Lemma Edit_changes_only_text_witness :
  let e := {| random36 := js "0.4fzyo82mvyr"; now := 1700000000000 |} in
  let a := {| id := js "a"; text := js "Buy milk"; completed := true |} in
  let b := {| id := js "b"; text := js "Walk dog"; completed := false |} in
  (∃ l1 l2, [b; a] = l1 ++ a :: l2
     ∧ Edit e (js "a") (js " Buy oat milk ") [b; a]
       = l1 ++ {| id := js "a"; text := js "Buy oat milk"; completed := true |}
            :: l2)
  ∧ Edit e (js "z") (js " Buy oat milk ") [b; a] = [b; a].
Proof.
  intros e a b. split.
  - refine (proj1 (Edit_changes_only_text e (js "a") (js " Buy oat milk ") [b; a]
                     _ _ _) a _ _).
    + vm_compute; discriminate.
    + unfold distinct_ids. vm_compute. apply NoDup_ListNoDup.
      repeat constructor; simpl; intuition discriminate.
    + vm_compute; discriminate.
    + apply list_elem_of_In. simpl. auto.
    + reflexivity.
  - refine (proj2 (Edit_changes_only_text e (js "z") (js " Buy oat milk ") [b; a]
                     _ _ _) _).
    + vm_compute; discriminate.
    + unfold distinct_ids. vm_compute. apply NoDup_ListNoDup.
      repeat constructor; simpl; intuition discriminate.
    + vm_compute; discriminate.
    + vm_compute. intros H%list_elem_of_In. simpl in H. intuition discriminate.
Defined.

(** C3 as stated fails at the empty id: [if (editingId)] is false for the
    empty string, so saving while editing the todo whose id is empty takes
    the other branch and prepends a new todo instead. *)
Lemma Edit_empty_id_counterexample :
  let e := {| random36 := js "0.4fzyo82mvyr"; now := 1700000000000 |} in
  let t := {| id := []; text := js "a"; completed := false |} in
  distinct_ids [t] ∧ JsString.trim (js "b") ≠ [] ∧ t ∈ [t]
  ∧ Edit e (id t) (js "b") [t]
    = [ {| id := js "4fzyo82m1700000000000"; text := js "b"; completed := false |};
        t ]
  ∧ ¬ (∃ l1 l2, [t] = l1 ++ t :: l2
         ∧ Edit e (id t) (js "b") [t]
           = l1 ++ {| id := id t; text := JsString.trim (js "b");
                      completed := completed t |} :: l2)
  ∧ ([] ∉ id <$> ([] : list Todo))
  ∧ Edit e [] (js "b") [] ≠ [].
Proof.
  intros e t. split_and!.
  - unfold distinct_ids. simpl. apply NoDup_singleton.
  - vm_compute; discriminate.
  - left.
  - vm_compute. reflexivity.
  - intros (l1 & l2 & Hl & HE).
    assert (Hlen : length (Edit e (id t) (js "b") [t]) = 2%nat)
      by (vm_compute; reflexivity).
    rewrite HE in Hlen. apply (f_equal length) in Hl.
    rewrite length_app in Hl, Hlen. simpl in Hl, Hlen. lia.
  - simpl. apply not_elem_of_nil.
  - vm_compute. discriminate.
Qed.

(** C4: toggling the same id twice gives the list back (the flag of the
    todo returns to its value, every other todo and the order are kept);
    one toggle negates the flag of the todo with that id and changes nothing
    else; an id that no todo has leaves the list as it is.  Distinct ids are
    not needed for any of the three. *)
Theorem Toggle_involution (i : jsstring) (l : list Todo) :
  Toggle i (Toggle i l) = l
  ∧ (∀ k t, l !! k = Some t ->
       Toggle i l !! k
       = Some (if bool_decide (id t = i)
               then {| id := id t; text := text t;
                       completed := negb (completed t) |}
               else t))
  ∧ (i ∉ id <$> l -> Toggle i l = l).
Proof.
  unfold Toggle, flip_completed. split_and!.
  - rewrite <- list_fmap_compose. rewrite <- (list_fmap_id l) at 2.
    apply list_fmap_ext. intros _ [ti tt tc] _. simpl.
    destruct (decide (ti = i)) as [E|E].
    + rewrite !(bool_decide_eq_true_2 (ti = i)) by done. simpl.
      by rewrite negb_involutive.
    + by rewrite !(bool_decide_eq_false_2 (ti = i)).
  - intros k t Hk.
    apply (upd_lookup (λ t, {| id := id t; text := text t;
                               completed := negb (completed t) |})), Hk.
  - apply (upd_absent (λ t, {| id := id t; text := text t;
                               completed := negb (completed t) |})).
Qed.

Lemma Toggle_involution_witness :
  let a := {| id := js "a"; text := js "Buy milk"; completed := false |} in
  let b := {| id := js "b"; text := js "Walk dog"; completed := false |} in
  Toggle (js "a") (Toggle (js "a") [b; a]) = [b; a]
  ∧ Toggle (js "a") [b; a] !! 1%nat
    = Some {| id := js "a"; text := js "Buy milk"; completed := true |}
  ∧ Toggle (js "z") [b; a] = [b; a].
Proof.
  intros a b. split_and!.
  - exact (proj1 (Toggle_involution (js "a") [b; a])).
  - exact (proj1 (proj2 (Toggle_involution (js "a") [b; a])) 1%nat a eq_refl).
  - apply (proj2 (proj2 (Toggle_involution (js "z") [b; a]))).
    vm_compute. intros H%list_elem_of_In. simpl in H. intuition discriminate.
Defined.

(** C5: in a list with pairwise distinct ids, Delete of the id of a todo
    of the list removes that todo and nothing else, the todos before and
    after it keeping their order; Delete of an id that no todo has gives the
    same list. *)
Theorem Delete_removes_one (i : jsstring) (l : list Todo) :
  distinct_ids l ->
  (∀ t, t ∈ l -> id t = i ->
     ∃ l1 l2, l = l1 ++ t :: l2 ∧ Delete i l = l1 ++ l2)
  ∧ (i ∉ id <$> l -> Delete i l = l).
Proof.
  intros Hnd. unfold Delete. split.
  - intros t Ht <-. apply list_elem_of_split in Ht as (l1 & l2 & ->).
    exists l1, l2. split; [done|]. by apply remove_id_split.
  - apply remove_id_absent.
Qed.

Lemma Delete_removes_one_witness :
  let a := {| id := js "a"; text := js "Buy milk"; completed := true |} in
  let b := {| id := js "b"; text := js "Walk dog"; completed := false |} in
  let c := {| id := js "c"; text := js "Call mum"; completed := false |} in
  (∃ l1 l2, [c; b; a] = l1 ++ b :: l2 ∧ Delete (js "b") [c; b; a] = l1 ++ l2)
  ∧ Delete (js "z") [c; b; a] = [c; b; a].
Proof.
  intros a b c.
  assert (Hnd : distinct_ids [c; b; a]).
  { unfold distinct_ids. vm_compute. apply NoDup_ListNoDup.
    repeat constructor; simpl; intuition discriminate. }
  split.
  - refine (proj1 (Delete_removes_one (js "b") [c; b; a] Hnd) b _ eq_refl).
    apply list_elem_of_In. simpl. auto.
  - apply (proj2 (Delete_removes_one (js "z") [c; b; a] Hnd)).
    vm_compute. intros H%list_elem_of_In. simpl in H. intuition discriminate.
Defined.

(** C6: when the trim of the input is empty, [handleSave] returns before
    any state is set: the whole state, and so the list, is unchanged, whether
    the modal was opened to add or to edit. *)
Theorem handleSave_blank_noop (e : Env) (s i : jsstring) (l : list Todo) :
  JsString.trim s = [] ->
  (∀ st, input st = s -> handleSave e st = st)
  ∧ Create e s l = l
  ∧ Edit e i s l = l.
Proof.
  intros Hs. split_and!.
  - intros st <-. by apply handleSave_blank.
  - unfold Create. by rewrite handleSave_blank.
  - unfold Edit. by rewrite handleSave_blank.
Qed.

Lemma handleSave_blank_noop_witness :
  let e := {| random36 := js "0.4fzyo82mvyr"; now := 1700000000000 |} in
  let a := {| id := js "a"; text := js "Buy milk"; completed := true |} in
  handleSave e (openAddModal {| todos := [a]; modalVisible := false;
                                input := js "   "; editingId := None |})
  = openAddModal {| todos := [a]; modalVisible := false;
                    input := js "   "; editingId := None |}
  ∧ Create e (js "   ") [a] = [a]
  ∧ Edit e (js "a") (js "   ") [a] = [a].
Proof.
  intros e a.
  pose proof (handleSave_blank_noop e [] (js "a") [a] eq_refl) as (H1 & _ & _).
  pose proof (handleSave_blank_noop e (js "   ") (js "a") [a] eq_refl) as (_ & H2 & H3).
  split_and!; [by apply H1|exact H2|exact H3].
Defined.

Lemma store_inv_prepend newId newText l :
  newText ≠ [] -> newId ∉ id <$> l -> store_inv l ->
  store_inv (prepend_new newId newText l).
Proof.
  intros Ht Hfresh [Hnd Hne]. split.
  - unfold distinct_ids, prepend_new. rewrite fmap_cons. by apply NoDup_cons.
  - by apply Forall_cons.
Qed.

Lemma store_inv_edit_text i newText l :
  newText ≠ [] -> store_inv l -> store_inv (edit_text i newText l).
Proof.
  intros Ht [Hnd Hne]. unfold edit_text. split.
  - unfold distinct_ids.
    by rewrite (upd_ids (λ t, {| id := id t; text := newText;
                                 completed := completed t |})).
  - apply Forall_fmap. eapply Forall_impl; [exact Hne|].
    intros t Htext. simpl. by case_bool_decide.
Qed.

Lemma store_inv_flip_completed i l :
  store_inv l -> store_inv (flip_completed i l).
Proof.
  intros [Hnd Hne]. unfold flip_completed. split.
  - unfold distinct_ids.
    by rewrite (upd_ids (λ t, {| id := id t; text := text t;
                                 completed := negb (completed t) |})).
  - apply Forall_fmap. eapply Forall_impl; [exact Hne|].
    intros t Htext. simpl. by case_bool_decide.
Qed.

Lemma store_inv_remove_id i l : store_inv l -> store_inv (remove_id i l).
Proof.
  intros [Hnd Hne]. unfold remove_id. split.
  - unfold distinct_ids. eapply sublist_NoDup; [exact Hnd|].
    apply fmap_sublist, sublist_filter.
  - apply Forall_forall. intros t [_ Ht]%list_elem_of_filter.
    by apply (proj1 (Forall_forall _ _) Hne).
Qed.

Lemma remove_id_length i l :
  distinct_ids l -> (length l <= S (length (remove_id i l)))%nat.
Proof.
  intros Hnd. destruct (decide (i ∈ id <$> l)) as [Hin|Hnot].
  - apply list_elem_of_fmap in Hin as (t & -> & Ht).
    apply list_elem_of_split in Ht as (l1 & l2 & ->).
    rewrite remove_id_split by done. rewrite !length_app. simpl. lia.
  - rewrite remove_id_absent by done. lia.
Qed.

(** C9, as amended: when the ids of the list are pairwise distinct and no
    text is empty, the same holds after Create (given that the id [uuid()]
    returns is not in the list), after Edit at a non-empty id, after Toggle
    and after Delete; Edit at the empty id runs the create branch and keeps
    the invariant under the condition of Create.  An id addresses at most
    one todo: Toggle, and Edit at a non-empty id, change the list at one
    position at most, and Delete removes one todo at most. *)
Theorem ops_preserve_store_inv (e : Env) (i s : jsstring) (l : list Todo) :
  store_inv l ->
  (uuid e ∉ id <$> l -> store_inv (Create e s l))
  ∧ (i ≠ [] ∨ uuid e ∉ id <$> l -> store_inv (Edit e i s l))
  ∧ store_inv (Toggle i l)
  ∧ store_inv (Delete i l)
  ∧ (length (filter (λ t, id t = i) l) <= 1)%nat
  ∧ (i ≠ [] -> ∀ k k', Edit e i s l !! k ≠ l !! k ->
                       Edit e i s l !! k' ≠ l !! k' -> k = k')
  ∧ (∀ k k', Toggle i l !! k ≠ l !! k -> Toggle i l !! k' ≠ l !! k' -> k = k')
  ∧ (length l <= S (length (Delete i l)))%nat.
Proof.
  intros Hinv.
  assert (HC : uuid e ∉ id <$> l -> store_inv (Create e s l)).
  { intros Hfresh. destruct (decide (JsString.trim s = [])) as [Hs|Hs].
    - unfold Create. by rewrite handleSave_blank.
    - rewrite Create_cons by done. by apply store_inv_prepend. }
  split_and!.
  - exact HC.
  - intros [Hi|Hfresh].
    + destruct (decide (JsString.trim s = [])) as [Hs|Hs].
      * unfold Edit. by rewrite handleSave_blank.
      * rewrite Edit_edit_text by done. by apply store_inv_edit_text.
    + destruct i as [|c i'].
      * rewrite Edit_empty_id. by apply HC.
      * destruct (decide (JsString.trim s = [])) as [Hs|Hs].
        -- unfold Edit. by rewrite handleSave_blank.
        -- rewrite Edit_edit_text by done. by apply store_inv_edit_text.
  - by apply store_inv_flip_completed.
  - by apply store_inv_remove_id.
  - apply addressed_at_most_one, Hinv.
  - intros Hi k k'. destruct (decide (JsString.trim s = [])) as [Hs|Hs].
    + unfold Edit. rewrite handleSave_blank by done. simpl. congruence.
    + rewrite Edit_edit_text by done.
      apply (upd_changes_once (λ t, {| id := id t; text := JsString.trim s;
                                       completed := completed t |})), Hinv.
  - intros k k'.
    apply (upd_changes_once (λ t, {| id := id t; text := text t;
                                     completed := negb (completed t) |})), Hinv.
  - apply remove_id_length, Hinv.
Qed.

Lemma ops_preserve_store_inv_witness :
  let e := {| random36 := js "0.4fzyo82mvyr"; now := 1700000000000 |} in
  let a := {| id := js "a"; text := js "Buy milk"; completed := true |} in
  let b := {| id := js "b"; text := js "Walk dog"; completed := false |} in
  store_inv [b; a]
  ∧ store_inv (Create e (js "Call mum") [b; a])
  ∧ store_inv (Edit e (js "a") (js "Buy oat milk") [b; a])
  ∧ store_inv (Toggle (js "a") [b; a])
  ∧ store_inv (Delete (js "a") [b; a])
  ∧ (length (filter (λ t, id t = js "a") [b; a]) <= 1)%nat.
Proof.
  intros e a b.
  assert (Hinv : store_inv [b; a]).
  { split.
    - unfold distinct_ids. vm_compute. apply NoDup_ListNoDup.
      repeat constructor; simpl; intuition discriminate.
    - repeat constructor; vm_compute; discriminate. }
  destruct (ops_preserve_store_inv e (js "a") (js "Call mum") [b; a] Hinv)
    as (HC & _ & HT & HD & Hone & _).
  destruct (ops_preserve_store_inv e (js "a") (js "Buy oat milk") [b; a] Hinv)
    as (_ & HE & _).
  split_and!; [exact Hinv| |apply HE|exact HT|exact HD|exact Hone].
  - apply HC. vm_compute. intros H%list_elem_of_In. simpl in H.
    intuition discriminate.
  - left. vm_compute. discriminate.
Defined.

(** C9 as stated fails for Edit at the empty id, which the list may hold:
    the save runs the create branch.  With an id from [uuid()] that the list
    holds already it leaves two todos of one id; and with any id it changes
    the list at more than one position. *)
Lemma Edit_empty_id_invariant_counterexample :
  let e := {| random36 := js "0.4fzyo82mvyr"; now := 1700000000000 |} in
  let e' := {| random36 := js "0.k3x9q"; now := 1700000000123 |} in
  let x := {| id := []; text := js "a"; completed := false |} in
  let y := {| id := js "4fzyo82m1700000000000"; text := js "c";
              completed := false |} in
  store_inv [x; y] ∧ x ∈ [x; y] ∧ JsString.trim (js "b") ≠ []
  ∧ Edit e (id x) (js "b") [x; y]
    = [ {| id := js "4fzyo82m1700000000000"; text := js "b"; completed := false |};
        x; y ]
  ∧ ¬ store_inv (Edit e (id x) (js "b") [x; y])
  ∧ (uuid e' ∉ (id <$> [x; y] : list (list N)))
  ∧ Edit e' (id x) (js "b") [x; y] !! 0%nat ≠ [x; y] !! 0%nat
  ∧ Edit e' (id x) (js "b") [x; y] !! 1%nat ≠ [x; y] !! 1%nat.
Proof.
  intros e e' x y.
  assert (Edit e (id x) (js "b") [x; y]
          = [ {| id := js "4fzyo82m1700000000000"; text := js "b";
                 completed := false |}; x; y ]) as HE
    by (vm_compute; reflexivity).
  split_and!.
  - split.
    + unfold distinct_ids. vm_compute. apply NoDup_ListNoDup.
      repeat constructor; simpl; intuition discriminate.
    + repeat constructor; vm_compute; discriminate.
  - left.
  - vm_compute. discriminate.
  - exact HE.
  - rewrite HE. intros [Hnd _]. unfold distinct_ids in Hnd.
    apply NoDup_ListNoDup in Hnd. vm_compute in Hnd.
    inversion Hnd as [|? ? Hnotin _]. apply Hnotin. simpl. auto.
  - vm_compute. intros H%list_elem_of_In. simpl in H. intuition discriminate.
  - vm_compute. discriminate.
  - vm_compute. discriminate.
Qed.

(** ** [JSON.parse] after [JSON.stringify] *)

Module JSONFacts.
Import JSON.

Lemma hex_value_digit d : d < 16 -> hex_value (hex_digit d) = Some d.
Proof.
  intros H.
  assert (d = 0 ∨ d = 1 ∨ d = 2 ∨ d = 3 ∨ d = 4 ∨ d = 5 ∨ d = 6 ∨ d = 7
          ∨ d = 8 ∨ d = 9 ∨ d = 10 ∨ d = 11 ∨ d = 12 ∨ d = 13 ∨ d = 14
          ∨ d = 15) as Hd by lia.
  repeat (destruct Hd as [->|Hd]; [reflexivity|]). by subst.
Qed.

Lemma hex4_UnicodeEscape c r :
  c < 65536 ->
  ∃ h1 h2 h3 h4,
    UnicodeEscape c ++ r = 92 :: 117 :: h1 :: h2 :: h3 :: h4 :: r
    ∧ hex4 h1 h2 h3 h4 = Some c.
Proof.
  intros Hc. eexists _, _, _, _. split; [reflexivity|].
  unfold hex4.
  rewrite !hex_value_digit by (zify; Z.to_euclidean_division_equations; lia).
  simpl. f_equal. zify; Z.to_euclidean_division_equations; lia.
Qed.

Lemma parse_chars_plain c r :
  c ≠ 34 -> c ≠ 92 -> 32 <= c ->
  parse_chars (c :: r) = push c (parse_chars r).
Proof.
  intros H1 H2 H3. simpl.
  rewrite (proj2 (N.eqb_neq c 34)), (proj2 (N.eqb_neq c 92)) by done.
  by rewrite (proj2 (N.ltb_ge c 32)).
Qed.

Lemma parse_chars_quote_unit c r :
  parse_chars (quote_unit c ++ r) = push c (parse_chars r).
Proof.
  unfold quote_unit.
  destruct (N.eqb_spec c 8) as [->|?]; [reflexivity|].
  destruct (N.eqb_spec c 9) as [->|?]; [reflexivity|].
  destruct (N.eqb_spec c 10) as [->|?]; [reflexivity|].
  destruct (N.eqb_spec c 12) as [->|?]; [reflexivity|].
  destruct (N.eqb_spec c 13) as [->|?]; [reflexivity|].
  destruct (N.eqb_spec c 34) as [->|?]; [reflexivity|].
  destruct (N.eqb_spec c 92) as [->|?]; [reflexivity|].
  destruct (_ || _ || _) eqn:E.
  - assert (c < 65536) as Hc.
    { unfold is_leading_surrogate, is_trailing_surrogate in E.
      rewrite !orb_true_iff, !andb_true_iff, N.ltb_lt, !N.leb_le in E. lia. }
    destruct (hex4_UnicodeEscape c r Hc) as (h1 & h2 & h3 & h4 & -> & Hh).
    simpl. by rewrite Hh.
  - apply parse_chars_plain; [done|done|].
    apply orb_false_iff in E as [E _]. apply orb_false_iff in E as [E _].
    apply N.ltb_ge in E. lia.
Qed.

Lemma quote_units_cons c1 c2 rest :
  quote_units (c1 :: c2 :: rest)
  = if is_leading_surrogate c1 && is_trailing_surrogate c2
    then c1 :: c2 :: quote_units rest
    else quote_unit c1 ++ quote_units (c2 :: rest).
Proof. reflexivity. Qed.

Lemma parse_chars_quote_units s r :
  parse_chars (quote_units s ++ 34 :: r) = Some (s, r).
Proof.
  remember (length s) as n eqn:Hn. revert s Hn.
  induction n as [n IH] using lt_wf_ind. intros s Hn.
  destruct s as [|c1 [|c2 rest]].
  - reflexivity.
  - simpl quote_units. rewrite parse_chars_quote_unit. reflexivity.
  - rewrite quote_units_cons.
    destruct (is_leading_surrogate c1 && is_trailing_surrogate c2) eqn:E.
    + apply andb_true_iff in E as [E1 E2].
      unfold is_leading_surrogate, is_trailing_surrogate in E1, E2.
      rewrite andb_true_iff, !N.leb_le in E1, E2.
      rewrite <- !app_comm_cons.
      rewrite parse_chars_plain by lia. rewrite parse_chars_plain by lia.
      assert (length rest < n)%nat as Hlt by (subst n; simpl; lia).
      by rewrite (IH _ Hlt rest eq_refl).
    + rewrite <- app_assoc, parse_chars_quote_unit.
      assert (length (c2 :: rest) < n)%nat as Hlt by (subst n; simpl; lia).
      by rewrite (IH _ Hlt (c2 :: rest) eq_refl).
Qed.

Lemma parse_QuoteJSONString s r :
  ∃ tl, QuoteJSONString s ++ r = 34 :: tl ∧ parse_chars tl = Some (s, r).
Proof.
  exists (quote_units s ++ 34 :: r). split.
  - unfold QuoteJSONString. simpl. by rewrite <- app_assoc.
  - apply parse_chars_quote_units.
Qed.


Lemma value_ind_nested (P : value -> Prop) :
  P JNull -> (∀ b, P (JBool b)) -> (∀ x, P (JNumber x)) -> (∀ s, P (JString s)) ->
  (∀ vs, Forall P vs -> P (JArray vs)) ->
  (∀ ms, Forall (λ m, P m.2) ms -> P (JObject ms)) ->
  ∀ v, P v.
Proof.
  intros Hnull Hbool Hnum Hstr Harr Hobj. fix IH 1.
  intros [|b|x|s|vs|ms].
  - exact Hnull.
  - apply Hbool.
  - apply Hnum.
  - apply Hstr.
  - apply Harr. induction vs as [|v vs IHvs]; constructor; [apply IH|exact IHvs].
  - apply Hobj.
    induction ms as [|[k v] ms IHms]; constructor; [apply IH|exact IHms].
Qed.

Lemma serialize_head v :
  number_free v = true ->
  ∃ c tl, serialize v = c :: tl ∧ is_ws c = false ∧ c ≠ 93.
Proof.
  destruct v as [|[]|x|s|vs|ms]; intros H; try discriminate;
    eexists _, _; (split; [reflexivity|]); split; (reflexivity || discriminate).
Qed.

Lemma join_comma_cons p ps :
  join_comma (p :: ps)
  = match ps with [] => p | _ :: _ => p ++ 44 :: join_comma ps end.
Proof. reflexivity. Qed.

Lemma join_comma_fmap2 {A} (f : A -> jsstring) a b l :
  join_comma (f <$> a :: b :: l) = f a ++ 44 :: join_comma (f <$> b :: l).
Proof. reflexivity. Qed.

Lemma join_comma_fmap1 {A} (f : A -> jsstring) a :
  join_comma (f <$> [a]) = f a.
Proof. reflexivity. Qed.

Lemma join_comma_length parts :
  Forall (λ p, p ≠ []) parts -> (length parts <= length (join_comma parts))%nat.
Proof.
  induction 1 as [|p ps Hp Hps IH]; [done|].
  rewrite join_comma_cons. destruct p as [|c p]; [done|].
  destruct ps as [|p' ps]; [simpl; lia|].
  rewrite length_app. cbn [length] in *. lia.
Qed.

Lemma skip_ws_head c s : is_ws c = false -> skip_ws (c :: s) = c :: s.
Proof. intros H. simpl. by rewrite H. Qed.

Ltac next_unit :=
  rewrite skip_ws_head by reflexivity; cbn [N.eqb Pos.eqb].

Section Loops.
Context (p : jsstring -> option (value * jsstring)).

Lemma parse_elements_serialize vs :
  vs ≠ [] ->
  Forall (λ v, ∀ r, p (serialize v ++ r) = Some (v, r)) vs ->
  ∀ n r, (length vs <= n)%nat ->
    parse_elements p n (join_comma (serialize <$> vs) ++ 93 :: r) = Some (vs, r).
Proof.
  intros Hne Hall. induction Hall as [|v vs Hv Hvs IH]; [done|].
  intros [|n] r Hn; [simpl in Hn; lia|].
  destruct vs as [|v' vs].
  - rewrite join_comma_fmap1. simpl. rewrite Hv. reflexivity.
  - rewrite join_comma_fmap2, <- app_assoc, <- app_comm_cons.
    cbn [parse_elements]. rewrite Hv. cbn [mbind option_bind].
    simpl in Hn. next_unit. rewrite IH; [reflexivity|done|simpl; lia].
Qed.

Lemma parse_members_serialize ms :
  ms ≠ [] ->
  Forall (λ m, ∀ r, p (serialize m.2 ++ r) = Some (m.2, r)) ms ->
  ∀ n r, (length ms <= n)%nat ->
    parse_members p n
      (join_comma ((λ m, QuoteJSONString m.1 ++ 58 :: serialize m.2) <$> ms)
         ++ 125 :: r)
    = Some (ms, r).
Proof.
  intros Hne Hall. induction Hall as [|[k v] ms Hv Hvs IH]; [done|].
  intros [|n] r Hn; [simpl in Hn; lia|]. simpl in Hv.
  destruct ms as [|m' ms].
  - rewrite join_comma_fmap1. cbn [fst snd].
    rewrite <- app_assoc, <- app_comm_cons.
    destruct (parse_QuoteJSONString k (58 :: serialize v ++ 125 :: r))
      as (tl & -> & Htl).
    cbn [parse_members]. next_unit. rewrite Htl. cbn [mbind option_bind].
    next_unit. rewrite Hv. reflexivity.
  - rewrite join_comma_fmap2. cbn [fst snd].
    rewrite <- !app_assoc, <- !app_comm_cons.
    match goal with
    | |- context [QuoteJSONString k ++ ?rest] =>
        destruct (parse_QuoteJSONString k rest) as (tl & -> & Htl)
    end.
    cbn [parse_members]. next_unit. rewrite Htl. cbn [mbind option_bind].
    next_unit. rewrite Hv. cbn [mbind option_bind].
    next_unit. simpl in Hn. rewrite IH; [reflexivity|done|simpl; lia].
Qed.

End Loops.


Lemma parse_value_array f c tl :
  is_ws c = false -> c ≠ 93 ->
  parse_value (S f) (91 :: c :: tl)
  = '(vs, r) ← parse_elements (parse_value f) (length (c :: tl)) (c :: tl);
    Some (JArray vs, r).
Proof.
  intros Hws Hc. cbn [parse_value]. next_unit.
  rewrite skip_ws_head by done. by rewrite (proj2 (N.eqb_neq c 93)).
Qed.

Lemma parse_value_object f c tl :
  is_ws c = false -> c ≠ 125 ->
  parse_value (S f) (123 :: c :: tl)
  = '(ms, r) ← parse_members (parse_value f) (length (c :: tl)) (c :: tl);
    Some (JObject ms, r).
Proof.
  intros Hws Hc. cbn [parse_value]. next_unit.
  rewrite skip_ws_head by done. by rewrite (proj2 (N.eqb_neq c 125)).
Qed.

Lemma max_list_with_le {A} (f : A -> nat) x l :
  x ∈ l -> (f x <= max_list_with f l)%nat.
Proof.
  induction 1 as [x l|x y l Hx IH]; cbn [max_list_with]; lia.
Qed.

Lemma number_free_elements vs :
  forallb number_free vs = true -> Forall (λ v, number_free v = true) vs.
Proof. intros H. apply Forall_forall. intros v Hv%list_elem_of_In.
  by apply (proj1 (forallb_forall _ _) H). Qed.

Lemma number_free_members (ms : list (jsstring * value)) :
  forallb (λ m, number_free m.2) ms = true ->
  Forall (λ m, number_free m.2 = true) ms.
Proof. intros H. apply Forall_forall. intros v Hv%list_elem_of_In.
  by apply (proj1 (forallb_forall _ _) H). Qed.

Lemma serialize_elements_nonempty vs :
  Forall (λ v, number_free v = true) vs ->
  Forall (λ p, p ≠ []) (serialize <$> vs).
Proof.
  intros H. apply Forall_fmap. eapply Forall_impl; [exact H|].
  intros v (c & tl & Hs & _)%serialize_head. simpl. by rewrite Hs.
Qed.

(** A number-free value is read back from its serialization, whatever
    follows it, as soon as the fuel covers its depth. *)
Lemma parse_value_serialize v :
  number_free v = true ->
  ∀ fuel r, (depth v <= fuel)%nat ->
    parse_value fuel (serialize v ++ r) = Some (v, r).
Proof.
  induction v as [|b|x|s|vs IH|ms IH] using value_ind_nested;
    intros Hnf [|f] r Hf; try (simpl in Hf; lia); try discriminate.
  - reflexivity.
  - destruct b; reflexivity.
  - simpl serialize.
    destruct (parse_QuoteJSONString s r) as (tl & -> & Htl).
    cbn [parse_value]. next_unit. by rewrite Htl.
  - simpl in Hnf. apply number_free_elements in Hnf.
    destruct vs as [|v vs]; [reflexivity|].
    assert (Forall (λ v, ∀ r, parse_value f (serialize v ++ r) = Some (v, r))
              (v :: vs)) as Hall.
    { apply Forall_forall. intros w Hw r'.
      apply (proj1 (Forall_forall _ _) IH w Hw).
      - by apply (proj1 (Forall_forall _ _) Hnf).
      - cbn [depth] in Hf.
        pose proof (max_list_with_le depth w _ Hw). lia. }
    pose proof (join_comma_length _ (serialize_elements_nonempty _ Hnf)) as Hlen.
    rewrite length_fmap in Hlen.
    cbn [serialize]. rewrite <- app_comm_cons, <- app_assoc.
    change ([93] ++ r) with (93 :: r).
    pose proof (parse_elements_serialize (parse_value f) (v :: vs)
                  ltac:(done) Hall) as Hparse.
    destruct (serialize_head v) as (c & tl & Hc & Hws & Hne).
    { by inversion Hnf. }
    remember (join_comma (serialize <$> v :: vs) ++ 93 :: r) as text eqn:Htext.
    assert (∃ tl', text = c :: tl') as [tl' Hhead].
    { subst text. destruct vs as [|v' vs].
      - rewrite join_comma_fmap1, Hc. by eexists.
      - rewrite join_comma_fmap2, Hc. by eexists. }
    rewrite Hhead, parse_value_array by done. rewrite <- Hhead.
    rewrite Htext, Hparse; [reflexivity|].
    rewrite length_app. lia.
  - simpl in Hnf. apply number_free_members in Hnf.
    destruct ms as [|m ms]; [reflexivity|].
    assert (Forall (λ m, ∀ r, parse_value f (serialize m.2 ++ r) = Some (m.2, r))
              (m :: ms)) as Hall.
    { apply Forall_forall. intros w Hw r'.
      apply (proj1 (Forall_forall _ _) IH w Hw).
      - by apply (proj1 (Forall_forall _ _) Hnf).
      - cbn [depth] in Hf.
        pose proof (max_list_with_le (λ m : jsstring * value, depth m.2) w _ Hw).
        simpl in *. lia. }
    assert (length (m :: ms)
            <= length (join_comma ((λ m, QuoteJSONString m.1 ++ 58%N :: serialize m.2)
                                     <$> m :: ms)))%nat as Hlen.
    { rewrite <- (length_fmap (λ m, QuoteJSONString m.1 ++ 58 :: serialize m.2)).
      apply join_comma_length, Forall_fmap, Forall_forall. by intros. }
    cbn [serialize]. rewrite <- app_comm_cons, <- app_assoc.
    change ([125] ++ r) with (125 :: r).
    pose proof (parse_members_serialize (parse_value f) (m :: ms)
                  ltac:(done) Hall) as Hparse.
    remember (join_comma ((λ m, QuoteJSONString m.1 ++ 58 :: serialize m.2)
                            <$> m :: ms) ++ 125 :: r) as text eqn:Htext.
    assert (∃ tl', text = 34 :: tl') as [tl' Hhead].
    { subst text. destruct ms as [|m' ms].
      - rewrite join_comma_fmap1. by eexists.
      - rewrite join_comma_fmap2. by eexists. }
    rewrite Hhead, parse_value_object by done. rewrite <- Hhead.
    rewrite Htext, Hparse; [reflexivity|].
    rewrite length_app. lia.
Qed.

Lemma serialize_length v :
  number_free v = true -> (depth v <= length (serialize v))%nat.
Proof.
  induction v as [|b|x|s|vs IH|ms IH] using value_ind_nested; intros Hnf;
    try discriminate.
  - simpl. lia.
  - destruct b; simpl; lia.
  - simpl. lia.
  - simpl in Hnf. apply number_free_elements in Hnf.
    cbn [depth serialize]. rewrite length_cons, length_app.
    apply le_n_S. etrans; [|apply Nat.le_add_r].
    clear -IH Hnf. induction vs as [|v vs IHvs]; [simpl; lia|].
    inversion IH as [|? ? Hv Hvs]; inversion Hnf as [|? ? Hfv Hfvs]; subst.
    specialize (IHvs Hvs Hfvs). specialize (Hv Hfv).
    cbn [max_list_with]. destruct vs as [|v' vs].
    + rewrite join_comma_fmap1. apply Nat.max_lub; simpl; lia.
    + rewrite join_comma_fmap2, length_app, length_cons.
      apply Nat.max_lub; [lia|]. etrans; [apply IHvs|].
      rewrite Nat.add_succ_r. apply Nat.le_le_succ_r, Nat.le_add_l.
  - simpl in Hnf. apply number_free_members in Hnf.
    cbn [depth serialize]. rewrite length_cons, length_app.
    apply le_n_S. etrans; [|apply Nat.le_add_r].
    clear -IH Hnf. induction ms as [|m ms IHms]; [simpl; lia|].
    inversion IH as [|? ? Hv Hvs]; inversion Hnf as [|? ? Hfv Hfvs]; subst.
    specialize (IHms Hvs Hfvs). specialize (Hv Hfv).
    cbn [max_list_with]. destruct ms as [|m' ms].
    + rewrite join_comma_fmap1, length_app, length_cons.
      apply Nat.max_lub; [lia|apply Nat.le_0_l].
    + rewrite join_comma_fmap2, !length_app, !length_cons.
      apply Nat.max_lub; [lia|]. etrans; [apply IHms|].
      rewrite Nat.add_succ_r. apply Nat.le_le_succ_r, Nat.le_add_l.
Qed.

(** [JSON.parse(JSON.stringify(v))] is [v] for every number-free value. *)
Lemma parse_serialize v : number_free v = true -> parse (serialize v) = Some v.
Proof.
  intros Hnf. unfold parse.
  rewrite <- (app_nil_r (serialize v)) at 2.
  rewrite parse_value_serialize; [reflexivity|done|].
  pose proof (serialize_length v Hnf). lia.
Qed.

End JSONFacts.

(** *** The bounds of the parser are never reached *)

Module JSONBounds.
Import JSON JSONFacts.

Lemma skip_ws_length s : (length (skip_ws s) <= length s)%nat.
Proof.
  induction s as [|c s IH]; [done|]. simpl.
  destruct (is_ws c); simpl; lia.
Qed.

Lemma push_length c o x r n :
  push c o = Some (x, r) ->
  (∀ y, o = Some (y, r) -> (length r < n)%nat) -> (length r < n)%nat.
Proof.
  unfold push. destruct o as [[y r']|]; [|done]. simpl.
  intros [= <- <-] H. by apply (H y).
Qed.

Lemma parse_chars_length s x r :
  parse_chars s = Some (x, r) -> (length r < length s)%nat.
Proof.
  remember (length s) as n eqn:Hn. revert s x r Hn.
  induction n as [n IH] using lt_wf_ind. intros s x r Hn.
  destruct s as [|c s]; [done|]. cbn [parse_chars].
  destruct (c =? 34).
  { intros [= <- <-]. subst n. simpl. lia. }
  destruct (c =? 92).
  - destruct s as [|e s]; [done|]. destruct (e =? 117).
    + destruct s as [|h1 [|h2 [|h3 [|h4 s]]]]; try done.
      destruct (hex4 h1 h2 h3 h4); [|done].
      intros H. eapply push_length; [exact H|]. intros y Hy.
      assert (length s < n)%nat as Hlt by (subst n; simpl; lia).
      pose proof (IH _ Hlt s y r eq_refl Hy). lia.
    + destruct (unescape e); [|done].
      intros H. eapply push_length; [exact H|]. intros y Hy.
      assert (length s < n)%nat as Hlt by (subst n; simpl; lia).
      pose proof (IH _ Hlt s y r eq_refl Hy). lia.
  - destruct (c <? 32); [done|].
    intros H. eapply push_length; [exact H|]. intros y Hy.
    assert (length s < n)%nat as Hlt by (subst n; simpl; lia).
    pose proof (IH _ Hlt s y r eq_refl Hy). lia.
Qed.

Lemma strip_prefix_length p s r :
  strip_prefix p s = Some r -> (length r <= length s)%nat.
Proof.
  revert s. induction p as [|c p IH]; intros s; simpl.
  - by intros [= ->].
  - destruct s as [|c' s]; [done|]. destruct (c =? c'); [|done].
    intros H%IH. simpl. lia.
Qed.

Lemma digits_length s : (length (digits s).2 <= length s)%nat.
Proof.
  induction s as [|c s IH]; [done|]. simpl.
  destruct (is_digit c); [|simpl; lia].
  destruct (digits s) as [ds r]. simpl in *. lia.
Qed.

Lemma digits1_length s ds r :
  digits1 s = Some (ds, r) -> (length r <= length s)%nat.
Proof.
  unfold digits1. pose proof (digits_length s) as H.
  destruct (digits s) as [[|d ds'] r']; [done|].
  by intros [= <- <-].
Qed.

Lemma parse_number_length s x r :
  parse_number s = Some (x, r) -> (length r < length s)%nat.
Proof.
  unfold parse_number.
  set (signed := match s with
                 | [] => ([], s)
                 | c :: r0 => if c =? 45 then ([45], r0) else ([], s)
                 end).
  assert (length signed.2 <= length s)%nat as Hsign.
  { subst signed. destruct s as [|c s']; [done|].
    destruct (c =? 45); simpl; lia. }
  destruct signed as [sign s1]. simpl in Hsign.
  destruct s1 as [|c1 r1]; [done|].
  set (int := if c1 =? 48 then Some ([48], r1)
              else if is_digit c1
                   then let '(ds, r') := digits r1 in Some (c1 :: ds, r')
                   else None).
  assert (∀ i s2, int = Some (i, s2) -> length s2 <= length r1)%nat as Hint.
  { subst int. intros i s2. destruct (c1 =? 48); [by intros [= <- <-]|].
    destruct (is_digit c1); [|done]. pose proof (digits_length r1) as H.
    destruct (digits r1) as [ds r']. by intros [= <- <-]. }
  destruct int as [[i s2]|]; [|done]. specialize (Hint i s2 eq_refl).
  cbn [mbind option_bind].
  set (frac := match s2 with
               | [] => Some ([], s2)
               | c :: r0 =>
                   if c =? 46 then digits1 r0 ≫= λ '(ds, r'), Some (46 :: ds, r')
                   else Some ([], s2)
               end).
  assert (∀ fr s3, frac = Some (fr, s3) -> length s3 <= length s2)%nat as Hfrac.
  { subst frac. intros fr s3. destruct s2 as [|c s2']; [by intros [= <- <-]|].
    destruct (c =? 46); [|by intros [= <- <-]].
    destruct (digits1 s2') as [[ds r']|] eqn:E; [|done].
    apply digits1_length in E. simpl. intros [= <- <-]. simpl. lia. }
  destruct frac as [[fr s3]|]; [|done]. specialize (Hfrac fr s3 eq_refl).
  cbn [mbind option_bind].
  set (exp := match s3 with
              | [] => Some ([], s3)
              | c :: r0 =>
                  if (c =? 101) || (c =? 69)
                  then
                    let '(esign, r2) :=
                      match r0 with
                      | [] => ([], r0)
                      | c' :: r' =>
                          if (c' =? 43) || (c' =? 45) then ([c'], r') else ([], r0)
                      end in
                    digits1 r2 ≫= λ '(ds, r3), Some (c :: esign ++ ds, r3)
                  else Some ([], s3)
              end).
  assert (∀ ex s4, exp = Some (ex, s4) -> length s4 <= length s3)%nat as Hexp.
  { subst exp. intros ex s4. destruct s3 as [|c s3']; [by intros [= <- <-]|].
    destruct ((c =? 101) || (c =? 69)); [|by intros [= <- <-]].
    set (es := match s3' with
               | [] => ([], s3')
               | c' :: r' =>
                   if (c' =? 43) || (c' =? 45) then ([c'], r') else ([], s3')
               end).
    assert (length es.2 <= length s3')%nat as Hes.
    { subst es. destruct s3' as [|c' r']; [done|].
      destruct ((c' =? 43) || (c' =? 45)); simpl; lia. }
    destruct es as [esign r2]. simpl in Hes.
    destruct (digits1 r2) as [[ds r3]|] eqn:E; [|done].
    apply digits1_length in E. simpl. intros [= <- <-]. simpl. lia. }
  destruct exp as [[ex s4]|]; [|done]. specialize (Hexp ex s4 eq_refl).
  cbn [mbind option_bind]. intros [= <- <-]. simpl in *. lia.
Qed.


Section Loops.
Context (p : jsstring -> option (value * jsstring)).
Hypothesis p_consuming : consuming p.

Lemma parse_elements_length n s vs r :
  parse_elements p n s = Some (vs, r) -> (length r < length s)%nat.
Proof.
  revert s vs r. induction n as [|n IH]; intros s vs r; [done|].
  cbn [parse_elements]. destruct (p s) as [[v r0]|] eqn:Ep; [|done].
  apply p_consuming in Ep. cbn [mbind option_bind].
  pose proof (skip_ws_length r0) as Hws.
  destruct (skip_ws r0) as [|c r1]; [done|]. simpl in Hws.
  destruct (c =? 44).
  - destruct (parse_elements p n r1) as [[vs' r2]|] eqn:E; [|done].
    apply IH in E. simpl. intros [= <- <-]. lia.
  - destruct (c =? 93); [|done]. intros [= <- <-]. lia.
Qed.

Lemma parse_members_length n s ms r :
  parse_members p n s = Some (ms, r) -> (length r < length s)%nat.
Proof.
  revert s ms r. induction n as [|n IH]; intros s ms r; [done|].
  cbn [parse_members]. pose proof (skip_ws_length s) as Hws0.
  destruct (skip_ws s) as [|q r0]; [done|]. simpl in Hws0.
  destruct (q =? 34); [|done].
  destruct (parse_chars r0) as [[k r1]|] eqn:Ek; [|done].
  apply parse_chars_length in Ek. cbn [mbind option_bind].
  pose proof (skip_ws_length r1) as Hws1.
  destruct (skip_ws r1) as [|colon r2]; [done|]. simpl in Hws1.
  destruct (colon =? 58); [|done].
  destruct (p r2) as [[v r3]|] eqn:Ep; [|done].
  apply p_consuming in Ep. cbn [mbind option_bind].
  pose proof (skip_ws_length r3) as Hws3.
  destruct (skip_ws r3) as [|c r4]; [done|]. simpl in Hws3.
  destruct (c =? 44).
  - destruct (parse_members p n r4) as [[ms' r5]|] eqn:E; [|done].
    apply IH in E. simpl. intros [= <- <-]. lia.
  - destruct (c =? 125); [|done]. intros [= <- <-]. lia.
Qed.

(** The count given to the loops is never reached when it is at least the
    length of the text. *)
Lemma parse_elements_bound n n' s :
  (length s <= n)%nat -> (length s <= n')%nat ->
  parse_elements p n s = parse_elements p n' s.
Proof.
  revert n' s. induction n as [|n IH]; intros n' s Hn Hn'.
  - destruct s; [|simpl in Hn; lia]. destruct n' as [|n']; [done|].
    cbn [parse_elements]. destruct (p []) as [[v r]|] eqn:Ep; [|done].
    apply p_consuming in Ep. simpl in Ep. lia.
  - destruct n' as [|n'].
    + destruct s; [|simpl in Hn'; lia]. cbn [parse_elements].
      destruct (p []) as [[v r]|] eqn:Ep; [|done].
      apply p_consuming in Ep. simpl in Ep. lia.
    + cbn [parse_elements]. destruct (p s) as [[v r0]|] eqn:Ep; [|done].
      apply p_consuming in Ep. cbn [mbind option_bind].
      pose proof (skip_ws_length r0) as Hws.
      destruct (skip_ws r0) as [|c r1]; [done|]. simpl in Hws.
      destruct (c =? 44); [|done]. by rewrite (IH n' r1) by lia.
Qed.

Lemma parse_members_bound n n' s :
  (length s <= n)%nat -> (length s <= n')%nat ->
  parse_members p n s = parse_members p n' s.
Proof.
  revert n' s. induction n as [|n IH]; intros n' s Hn Hn'.
  - destruct s; [|simpl in Hn; lia]. by destruct n'.
  - destruct n' as [|n'].
    + destruct s; [|simpl in Hn'; lia]. done.
    + cbn [parse_members]. pose proof (skip_ws_length s) as Hws0.
      destruct (skip_ws s) as [|q r0]; [done|]. simpl in Hws0.
      destruct (q =? 34); [|done].
      destruct (parse_chars r0) as [[k r1]|] eqn:Ek; [|done].
      apply parse_chars_length in Ek. cbn [mbind option_bind].
      pose proof (skip_ws_length r1) as Hws1.
      destruct (skip_ws r1) as [|colon r2]; [done|]. simpl in Hws1.
      destruct (colon =? 58); [|done].
      destruct (p r2) as [[v r3]|] eqn:Ep; [|done].
      apply p_consuming in Ep. cbn [mbind option_bind].
      pose proof (skip_ws_length r3) as Hws3.
      destruct (skip_ws r3) as [|c r4]; [done|]. simpl in Hws3.
      destruct (c =? 44); [|done]. by rewrite (IH n' r4) by lia.
Qed.

(** The loops depend on the parser of values only at texts no longer than
    theirs. *)
Context (p' : jsstring -> option (value * jsstring)).

Lemma parse_elements_ext n s :
  (∀ s', (length s' <= length s)%nat -> p s' = p' s') ->
  parse_elements p n s = parse_elements p' n s.
Proof.
  revert s. induction n as [|n IH]; intros s Hext; [done|].
  cbn [parse_elements]. rewrite <- (Hext s) by done.
  destruct (p s) as [[v r0]|] eqn:Ep; [|done].
  apply p_consuming in Ep. cbn [mbind option_bind].
  pose proof (skip_ws_length r0) as Hws.
  destruct (skip_ws r0) as [|c r1]; [done|]. simpl in Hws.
  destruct (c =? 44); [|done]. rewrite (IH r1); [done|].
  intros s' Hs'. apply Hext. lia.
Qed.

Lemma parse_members_ext n s :
  (∀ s', (length s' <= length s)%nat -> p s' = p' s') ->
  parse_members p n s = parse_members p' n s.
Proof.
  revert s. induction n as [|n IH]; intros s Hext; [done|].
  cbn [parse_members]. pose proof (skip_ws_length s) as Hws0.
  destruct (skip_ws s) as [|q r0]; [done|]. simpl in Hws0.
  destruct (q =? 34); [|done].
  destruct (parse_chars r0) as [[k r1]|] eqn:Ek; [|done].
  apply parse_chars_length in Ek. cbn [mbind option_bind].
  pose proof (skip_ws_length r1) as Hws1.
  destruct (skip_ws r1) as [|colon r2]; [done|]. simpl in Hws1.
  destruct (colon =? 58); [|done].
  rewrite <- (Hext r2) by lia.
  destruct (p r2) as [[v r3]|] eqn:Ep; [|done].
  apply p_consuming in Ep. cbn [mbind option_bind].
  pose proof (skip_ws_length r3) as Hws3.
  destruct (skip_ws r3) as [|c r4]; [done|]. simpl in Hws3.
  destruct (c =? 44); [|done]. rewrite (IH r4); [done|].
  intros s' Hs'. apply Hext. lia.
Qed.

End Loops.

Lemma parse_value_consuming f : consuming (parse_value f).
Proof.
  induction f as [|f IH]; intros s v r; [done|].
  cbn [parse_value]. pose proof (skip_ws_length s) as Hws.
  destruct (skip_ws s) as [|c r0]; [done|]. simpl in Hws.
  destruct (c =? 34).
  { destruct (parse_chars r0) as [[x r1]|] eqn:E; [|done].
    apply parse_chars_length in E. simpl. intros [= <- <-]. lia. }
  destruct (c =? 91).
  { pose proof (skip_ws_length r0) as Hws0.
    destruct (skip_ws r0) as [|c' r1]; [done|]. simpl in Hws0.
    destruct (c' =? 93); [intros [= <- <-]; lia|].
    destruct (parse_elements _ _ r0) as [[vs r2]|] eqn:E; [|done].
    apply (parse_elements_length _ IH) in E. simpl. intros [= <- <-]. lia. }
  destruct (c =? 123).
  { pose proof (skip_ws_length r0) as Hws0.
    destruct (skip_ws r0) as [|c' r1]; [done|]. simpl in Hws0.
    destruct (c' =? 125); [intros [= <- <-]; lia|].
    destruct (parse_members _ _ r0) as [[ms r2]|] eqn:E; [|done].
    apply (parse_members_length _ IH) in E. simpl. intros [= <- <-]. lia. }
  destruct (c =? 116).
  { destruct (strip_prefix _ r0) as [r1|] eqn:E; [|done].
    apply strip_prefix_length in E. simpl. intros [= <- <-]. lia. }
  destruct (c =? 102).
  { destruct (strip_prefix _ r0) as [r1|] eqn:E; [|done].
    apply strip_prefix_length in E. simpl. intros [= <- <-]. lia. }
  destruct (c =? 110).
  { destruct (strip_prefix _ r0) as [r1|] eqn:E; [|done].
    apply strip_prefix_length in E. simpl. intros [= <- <-]. lia. }
  destruct (parse_number (c :: r0)) as [[x r1]|] eqn:E; [|done].
  apply parse_number_length in E. simpl in *. intros [= <- <-]. lia.
Qed.

(** Fuel above the length of the text is never used up: the result is the
    same for every such fuel. *)
Lemma parse_value_fuel f f' s :
  (length s < f)%nat -> (length s < f')%nat ->
  parse_value f s = parse_value f' s.
Proof.
  revert f' s. induction f as [|f IH]; intros f' s Hf Hf'; [lia|].
  destruct f' as [|f']; [lia|].
  cbn [parse_value]. pose proof (skip_ws_length s) as Hws.
  destruct (skip_ws s) as [|c r0]; [done|]. simpl in Hws.
  assert (∀ s', (length s' <= length r0)%nat ->
                parse_value f s' = parse_value f' s') as Hext.
  { intros s' Hs'. apply IH; lia. }
  rewrite (parse_elements_ext _ (parse_value_consuming f) (parse_value f')
             (length r0) r0 Hext).
  rewrite (parse_members_ext _ (parse_value_consuming f) (parse_value f')
             (length r0) r0 Hext).
  reflexivity.
Qed.

(** [JSON.parse] with any larger fuel. *)
Lemma parse_fuel f text :
  (length text < f)%nat ->
  parse text
  = '(v, r) ← parse_value f text;
    match skip_ws r with [] => Some v | _ :: _ => None end.
Proof.
  intros Hf. unfold parse. by rewrite (parse_value_fuel _ f) by lia.
Qed.

End JSONBounds.

(** ** Loading and persisting *)

Lemma as_todo_json_of_todo t : as_todo (json_of_todo t) = Some t.
Proof. destruct t as [i x c]. reflexivity. Qed.

Lemma as_todos_json_of_todos l : as_todos (json_of_todos l) = Some l.
Proof. unfold as_todos, json_of_todos. apply mapM_fmap_Some, as_todo_json_of_todo. Qed.

Lemma number_free_json_of_todos l : JSON.number_free (json_of_todos l) = true.
Proof.
  unfold json_of_todos. cbn [JSON.number_free].
  apply forallb_forall. intros v Hv%list_elem_of_In.
  by apply list_elem_of_fmap in Hv as (t & -> & _).
Qed.

Lemma parse_stringify l :
  JSON.parse (JSON_stringify l) = Some (json_of_todos l).
Proof. apply JSONFacts.parse_serialize, number_free_json_of_todos. Qed.

(** Reading back what was written gives the list, for every list. *)
Lemma deserialize_stringify l : deserialize (JSON_stringify l) = Some l.
Proof.
  unfold deserialize. rewrite parse_stringify. apply as_todos_json_of_todos.
Qed.

Lemma deserialize_truthy data l :
  deserialize data = Some l -> JsString.truthy data = true.
Proof. by destruct data. Qed.

Lemma loadTodos_persist l storage : loadTodos (persist l storage) = Typed l.
Proof.
  unfold loadTodos, persist, getItem, setItem, loadTodos_from.
  rewrite lookup_insert_eq.
  rewrite (deserialize_truthy _ l (deserialize_stringify l)).
  rewrite parse_stringify. unfold loaded_of_json.
  by rewrite as_todos_json_of_todos.
Qed.







(** C7: every list that Create, Edit, Toggle and Delete build from the
    empty list is read back from its serialization: deserializing
    [JSON.stringify] of the list gives a list with the same todos, equal in
    [id], [text] and [completed], in the same order. *)
Theorem roundtrip_reachable (l : list Todo) :
  reachable l -> deserialize (JSON_stringify l) = Some l.
Proof.
  intros Hreach. unfold deserialize, JSON_stringify.
  rewrite JSONFacts.parse_serialize by apply number_free_json_of_todos.
  simpl. apply as_todos_json_of_todos.
Qed.

Lemma roundtrip_reachable_witness :
  let e1 := {| random36 := js "0.4fzyo82mvyr"; now := 1700000000000 |} in
  let e2 := {| random36 := js "0.k3x9q"; now := 1700000000123 |} in
  let l := Delete (uuid e2)
             (Toggle (uuid e1)
                (Edit e2 (uuid e1) (js "Buy oat milk")
                   (Create e2 (js "Walk dog") (Create e1 (js " Buy milk ") [])))) in
  l = [ {| id := js "4fzyo82m1700000000000"; text := js "Buy oat milk";
           completed := true |} ]
  ∧ deserialize (JSON_stringify l) = Some l.
Proof.
  intros e1 e2 l. split; [vm_compute; reflexivity|].
  apply roundtrip_reachable. unfold l.
  apply reachable_Delete, reachable_Toggle, reachable_Edit, reachable_Create,
    reachable_Create, reachable_empty.
Defined.

Lemma todo_layout i x c :
  JSON.serialize (json_of_todo {| id := i; text := x; completed := c |})
  = blob "{'id':" ++ JSON.QuoteJSONString i
    ++ blob ",'text':" ++ JSON.QuoteJSONString x
    ++ blob ",'completed':" ++ (if c then js "true" else js "false") ++ js "}".
Proof.
  unfold json_of_todo.
  cbn [JSON.serialize fmap list_fmap fst snd id text completed].
  rewrite JSONFacts.join_comma_cons.
  change (JSON.QuoteJSONString (js "id")) with (blob "'id'").
  change (JSON.QuoteJSONString (js "text")) with (blob "'text'").
  change (JSON.QuoteJSONString (js "completed")) with (blob "'completed'").
  rewrite JSONFacts.join_comma_cons. cbn [JSON.join_comma].
  generalize (JSON.QuoteJSONString i) (JSON.QuoteJSONString x)
             (if c then js "true" else js "false").
  intros q1 q2 b.
  repeat match goal with
         | |- context [blob ?lit] =>
             let v := eval vm_compute in (blob lit) in change (blob lit) with v
         | |- context [js ?lit] =>
             let v := eval vm_compute in (js lit) in change (js lit) with v
         end.
  repeat (rewrite <- ?app_assoc; rewrite <- ?app_comm_cons).
  reflexivity.
Qed.

Lemma JSON_stringify_layout l :
  JSON_stringify l
  = 91 :: JSON.join_comma
            ((λ t, blob "{'id':" ++ JSON.QuoteJSONString (id t)
                   ++ blob ",'text':" ++ JSON.QuoteJSONString (text t)
                   ++ blob ",'completed':"
                   ++ (if completed t then js "true" else js "false")
                   ++ js "}") <$> l)
       ++ [93].
Proof.
  unfold JSON_stringify, json_of_todos. cbn [JSON.serialize].
  rewrite <- list_fmap_compose.
  apply (f_equal (λ parts, 91 :: JSON.join_comma parts ++ [93])).
  apply list_fmap_ext.
  intros _ [i x c] _. apply todo_layout.
Qed.

(** C8: the persistence effect writes, under the one key [STORAGE_KEY],
    the serialization of the whole list: the value found there afterwards is
    the array of the todos in their order, each written as the object of its
    [id], [text] and [completed]; read back it gives the very list, so no
    two lists are written alike.  The value depends on the list alone,
    whatever was stored before is overwritten without a trace, no other key
    is touched, and persisting the same list again writes the same value and
    changes nothing. *)
Theorem persist_spec (l : list Todo) (storage : gmap (list N) (list N)) :
  persist l storage !! STORAGE_KEY = Some (JSON_stringify l)
  ∧ JSON_stringify l
    = 91 :: JSON.join_comma
              ((λ t, blob "{'id':" ++ JSON.QuoteJSONString (id t)
                     ++ blob ",'text':" ++ JSON.QuoteJSONString (text t)
                     ++ blob ",'completed':"
                     ++ (if completed t then js "true" else js "false")
                     ++ js "}") <$> l)
         ++ [93]
  ∧ persist l storage !! STORAGE_KEY ≫= deserialize = Some l
  ∧ (∀ l', persist l' storage !! STORAGE_KEY = persist l storage !! STORAGE_KEY ->
           l' = l)
  ∧ delete STORAGE_KEY (persist l storage) = delete STORAGE_KEY storage
  ∧ (∀ storage' : gmap (list N) (list N),
       persist l storage' !! STORAGE_KEY = persist l storage !! STORAGE_KEY)
  ∧ (∀ l', persist l (persist l' storage) = persist l storage)
  ∧ persist l (persist l storage) = persist l storage.
Proof.
  assert (∀ k, persist k storage !! STORAGE_KEY = Some (JSON_stringify k)) as Hw.
  { intros k. unfold persist, setItem. apply lookup_insert_eq. }
  split_and!.
  - apply Hw.
  - apply JSON_stringify_layout.
  - rewrite Hw. simpl. apply deserialize_stringify.
  - intros l'. rewrite !Hw. intros Heq.
    assert (JSON_stringify l' = JSON_stringify l) as Heq' by congruence.
    pose proof (deserialize_stringify l') as H'.
    rewrite Heq', deserialize_stringify in H'. congruence.
  - unfold persist, setItem. apply delete_insert_eq.
  - intros storage'. unfold persist, setItem. by rewrite !lookup_insert_eq.
  - intros l'. unfold persist, setItem. apply insert_insert_eq.
  - unfold persist, setItem. apply insert_insert_eq.
Qed.

Lemma persist_spec_witness :
  let a := {| id := js "a"; text := blob "say 'hi'"; completed := true |} in
  let b := {| id := js "b"; text := js "Walk dog"; completed := false |} in
  let storage : gmap (list N) (list N) :=
    {[ STORAGE_KEY := js "stale"; js "other" := js "kept" ]} in
  persist [b; a] storage !! STORAGE_KEY
  = Some (blob "[{'id':'b','text':'Walk dog','completed':false},{'id':'a','text':'say \'hi\'','completed':true}]")
  ∧ persist [b; a] storage !! STORAGE_KEY ≫= deserialize = Some [b; a]
  ∧ persist [b; a] storage !! js "other" = Some (js "kept")
  ∧ persist [b; a] (persist [a] storage) = persist [b; a] storage.
Proof.
  intros a b storage.
  destruct (persist_spec [b; a] storage) as (Hw & _ & Hr & _ & Hk & _ & Ho & _).
  split_and!.
  - exact Hw.
  - exact Hr.
  - rewrite <- (lookup_delete_ne (persist [b; a] storage) STORAGE_KEY (js "other"))
      by discriminate.
    rewrite Hk. vm_compute. reflexivity.
  - apply Ho.
Defined.

(** C10: the handlers act on every todo that has the id.  Delete leaves
    no todo with the id, Toggle negates the flag of each of them and Edit
    (at a non-empty id, with a text whose trim is not empty) replaces the
    text of each of them.  Such lists exist: [loadTodos] accepts a stored
    text in which two todos share an id, and on the list it yields each of
    the three changes both of them. *)
Theorem duplicate_ids_affect_all :
  (∀ i l, Forall (λ t, id t ≠ i) (Delete i l))
  ∧ (∀ i l k t, l !! k = Some t -> id t = i ->
       Toggle i l !! k
       = Some {| id := id t; text := text t; completed := negb (completed t) |})
  ∧ (∀ e i s l k t, i ≠ [] -> JsString.trim s ≠ [] ->
       l !! k = Some t -> id t = i ->
       Edit e i s l !! k
       = Some {| id := id t; text := JsString.trim s; completed := completed t |})
  ∧ (∃ (storage : gmap (list N) (list N)) (l : list Todo) (e : Env),
       loadTodos storage = Typed l
       ∧ length (filter (λ t, id t = js "a") l) = 2%nat
       ∧ Delete (js "a") l
         = [ {| id := js "b"; text := js "y"; completed := false |} ]
       ∧ Toggle (js "a") l
         = [ {| id := js "a"; text := js "x"; completed := true |};
             {| id := js "b"; text := js "y"; completed := false |};
             {| id := js "a"; text := js "z"; completed := false |} ]
       ∧ Edit e (js "a") (js "w") l
         = [ {| id := js "a"; text := js "w"; completed := false |};
             {| id := js "b"; text := js "y"; completed := false |};
             {| id := js "a"; text := js "w"; completed := true |} ]).
Proof.
  split_and!.
  - intros i l. apply remove_id_all.
  - intros i l k t Hk Hi. unfold Toggle, flip_completed.
    rewrite (upd_lookup (λ t, {| id := id t; text := text t;
                                 completed := negb (completed t) |}) i l k t Hk).
    by rewrite bool_decide_eq_true_2.
  - intros e i s l k t Hi Hs Hk Hid. rewrite Edit_edit_text by done.
    unfold edit_text.
    rewrite (upd_lookup (λ t, {| id := id t; text := JsString.trim s;
                                 completed := completed t |}) i l k t Hk).
    by rewrite bool_decide_eq_true_2.
  - exists {[ STORAGE_KEY :=
               blob "[{'id':'a','text':'x','completed':false},{'id':'b','text':'y','completed':false},{'id':'a','text':'z','completed':true}]" ]},
      [ {| id := js "a"; text := js "x"; completed := false |};
        {| id := js "b"; text := js "y"; completed := false |};
        {| id := js "a"; text := js "z"; completed := true |} ],
      {| random36 := js "0.4fzyo82mvyr"; now := 1700000000000 |}.
    split_and!; vm_compute; reflexivity.
Qed.

Lemma duplicate_ids_affect_all_witness :
  let e := {| random36 := js "0.4fzyo82mvyr"; now := 1700000000000 |} in
  let a1 := {| id := js "a"; text := js "x"; completed := false |} in
  let b := {| id := js "b"; text := js "y"; completed := false |} in
  let a2 := {| id := js "a"; text := js "z"; completed := true |} in
  Forall (λ t, id t ≠ js "a") (Delete (js "a") [a1; b; a2])
  ∧ Toggle (js "a") [a1; b; a2] !! 0%nat
    = Some {| id := js "a"; text := js "x"; completed := true |}
  ∧ Toggle (js "a") [a1; b; a2] !! 2%nat
    = Some {| id := js "a"; text := js "z"; completed := false |}
  ∧ Edit e (js "a") (js " w ") [a1; b; a2] !! 0%nat
    = Some {| id := js "a"; text := js "w"; completed := false |}
  ∧ Edit e (js "a") (js " w ") [a1; b; a2] !! 2%nat
    = Some {| id := js "a"; text := js "w"; completed := true |}.
Proof.
  intros e a1 b a2.
  destruct duplicate_ids_affect_all as (HD & HT & HE & _).
  split_and!.
  - apply HD.
  - exact (HT (js "a") [a1; b; a2] 0%nat a1 eq_refl eq_refl).
  - exact (HT (js "a") [a1; b; a2] 2%nat a2 eq_refl eq_refl).
  - refine (HE e (js "a") (js " w ") [a1; b; a2] 0%nat a1 _ _ eq_refl eq_refl);
      vm_compute; discriminate.
  - refine (HE e (js "a") (js " w ") [a1; b; a2] 2%nat a2 _ _ eq_refl eq_refl);
      vm_compute; discriminate.
Defined.

(** * Further properties of the component *)

(** ** [String.prototype.trim] *)

Module TrimFacts.
Import JsString.

Abbreviation white s := (Forall (λ c, is_white_space c = true) s).

Lemma trimStart_split s : ∃ a, s = a ++ trimStart s ∧ white a.
Proof.
  induction s as [|c s (a & Hs & Ha)]; [by exists []|]. simpl.
  destruct (is_white_space c) eqn:E.
  - exists (c :: a). split; [simpl; congruence|by constructor].
  - by exists [].
Qed.

Lemma trimStart_head s c r : trimStart s = c :: r -> is_white_space c = false.
Proof.
  induction s as [|c' s IH]; [done|]. simpl.
  destruct (is_white_space c') eqn:E; [done|]. by intros [= <- _].
Qed.

Lemma trimStart_fix s :
  match s with [] => True | c :: _ => is_white_space c = false end ->
  trimStart s = s.
Proof. destruct s as [|c s]; [done|]. simpl. by intros ->. Qed.

Lemma trimEnd_cons c s :
  trimEnd (c :: s)
  = match trimEnd s with
    | [] => if is_white_space c then [] else [c]
    | r' => c :: r'
    end.
Proof. reflexivity. Qed.

Lemma trimEnd_split s : ∃ b, s = trimEnd s ++ b ∧ white b.
Proof.
  induction s as [|c s (b & Hs & Hb)]; [by exists []|].
  rewrite trimEnd_cons. destruct (trimEnd s) as [|c' r'] eqn:E.
  - simpl in Hs. subst b. destruct (is_white_space c) eqn:Ec.
    + exists (c :: s). split; [done|by constructor].
    + by exists s.
  - exists b. split; [|done]. simpl. by rewrite Hs at 1.
Qed.

Lemma trimEnd_last s c : last (trimEnd s) = Some c -> is_white_space c = false.
Proof.
  induction s as [|c' s IH]; [done|]. rewrite trimEnd_cons.
  destruct (trimEnd s) as [|c'' r'] eqn:E.
  - destruct (is_white_space c') eqn:Ec; [done|]. by intros [= <-].
  - rewrite last_cons. destruct (last (c'' :: r')) eqn:El.
    + intros [= <-]. by apply IH.
    + by apply last_None in El.
Qed.

Lemma trimEnd_idemp s : trimEnd (trimEnd s) = trimEnd s.
Proof.
  induction s as [|c s IH]; [done|]. rewrite trimEnd_cons.
  destruct (trimEnd s) as [|c' r'] eqn:E.
  - destruct (is_white_space c) eqn:Ec; [done|]. simpl. by rewrite Ec.
  - rewrite trimEnd_cons, IH. done.
Qed.

Lemma trimEnd_head c s :
  is_white_space c = false -> ∃ r, trimEnd (c :: s) = c :: r.
Proof.
  intros Hc. rewrite trimEnd_cons, Hc. destruct (trimEnd s); by eexists.
Qed.

Lemma trimEnd_nil s : trimEnd s = [] ↔ white s.
Proof.
  split.
  - intros H. destruct (trimEnd_split s) as (b & Hs & Hb).
    rewrite H in Hs. simpl in Hs. by subst.
  - induction 1 as [|c s Hc _ IH]; [done|]. by rewrite trimEnd_cons, IH, Hc.
Qed.

Lemma trimStart_nil s : trimStart s = [] ↔ white s.
Proof.
  split.
  - intros H. destruct (trimStart_split s) as (a & Hs & Ha).
    rewrite H, app_nil_r in Hs. by subst.
  - induction 1 as [|c s Hc _ IH]; [done|]. simpl. by rewrite Hc.
Qed.

Lemma trim_nil s : trim s = [] ↔ white s.
Proof.
  unfold trim. rewrite <- trimStart_nil. split.
  - intros H. destruct (trimStart s) as [|c r] eqn:E; [done|].
    destruct (trimEnd_head c r (trimStart_head _ _ _ E)) as [r' Hr].
    congruence.
  - by intros ->.
Qed.

Lemma trim_head s c r : trim s = c :: r -> is_white_space c = false.
Proof.
  unfold trim. destruct (trimStart s) as [|c' r'] eqn:E; [done|].
  pose proof (trimStart_head _ _ _ E) as Hc'.
  destruct (trimEnd_head c' r' Hc') as [r'' Hr]. rewrite Hr.
  by intros [= <- _].
Qed.

Lemma trim_last s c : last (trim s) = Some c -> is_white_space c = false.
Proof. apply trimEnd_last. Qed.

Lemma trim_idemp s : trim (trim s) = trim s.
Proof.
  unfold trim at 1. rewrite trimStart_fix.
  - apply trimEnd_idemp.
  - destruct (trim s) as [|c r] eqn:E; [done|]. by apply (trim_head s c r).
Qed.

Lemma trim_split s : ∃ a b, s = a ++ trim s ++ b ∧ white a ∧ white b.
Proof.
  destruct (trimStart_split s) as (a & Hs & Ha).
  destruct (trimEnd_split (trimStart s)) as (b & Hs' & Hb).
  exists a, b. split; [|done]. unfold trim. by rewrite <- Hs'.
Qed.

Lemma trim_length s : (length (trim s) <= length s)%nat.
Proof.
  destruct (trim_split s) as (a & b & Hs & _).
  rewrite Hs at 2. rewrite !length_app. lia.
Qed.

End TrimFacts.

(** ** Saving *)

Lemma handleSave_state e st :
  JsString.trim (input st) ≠ [] ->
  handleSave e st
  = {| todos := if editing (editingId st)
                then edit_text (default [] (editingId st))
                       (JsString.trim (input st)) (todos st)
                else prepend_new (uuid e) (JsString.trim (input st)) (todos st);
       modalVisible := false; input := []; editingId := None |}.
Proof.
  intros Hs. unfold handleSave. rewrite bool_decide_eq_false_2 by done.
  f_equal. destruct (editingId st) as [[|c eid]|]; reflexivity.
Qed.

Lemma handleSave_fixed e st :
  handleSave e st = st ↔ JsString.trim (input st) = [].
Proof.
  split; [|apply handleSave_blank].
  intros H. destruct (decide (JsString.trim (input st) = [])) as [|Hs]; [done|].
  rewrite handleSave_state in H by done.
  apply (f_equal input) in H. simpl in H. rewrite <- H in Hs. done.
Qed.

Lemma saveDisabled_blank st :
  saveDisabled st = true ↔ JsString.trim (input st) = [].
Proof. unfold saveDisabled. by destruct (JsString.trim (input st)). Qed.

(** X1: a save does nothing exactly when the input is made of white
    space only (the empty input included), which is exactly when the save
    button is disabled; so pressing the button and submitting from the
    keyboard always have the same effect. *)
Theorem save_rejects_white_space (e : Env) (st : AppState) :
  (handleSave e st = st ↔ Forall (λ c, JsString.is_white_space c = true) (input st))
  ∧ (saveDisabled st = true
     ↔ Forall (λ c, JsString.is_white_space c = true) (input st))
  ∧ dispatch (PressSave e) st = dispatch (SubmitEditing e) st.
Proof.
  split_and!.
  - rewrite handleSave_fixed. apply TrimFacts.trim_nil.
  - rewrite saveDisabled_blank. apply TrimFacts.trim_nil.
  - simpl. destruct (saveDisabled st) eqn:E; [|done].
    symmetry. by apply handleSave_blank, saveDisabled_blank.
Qed.

(** X2: after a save, every todo of the list either was in the list
    before, unchanged, or carries the trimmed input as its text: a text that
    is not empty, neither begins nor ends with white space, and is no longer
    than what was typed. *)
Theorem saved_text_is_trimmed (e : Env) (st : AppState) (t : Todo) :
  t ∈ todos (handleSave e st) ->
  t ∈ todos st
  ∨ (text t = JsString.trim (input st)
     ∧ text t ≠ []
     ∧ (∀ c r, text t = c :: r -> JsString.is_white_space c = false)
     ∧ (∀ c, last (text t) = Some c -> JsString.is_white_space c = false)
     ∧ (length (text t) <= length (input st))%nat).
Proof.
  intros Ht. destruct (decide (JsString.trim (input st) = [])) as [Hs|Hs].
  { left. by rewrite handleSave_blank in Ht. }
  assert (∀ t', text t' = JsString.trim (input st) ->
            text t' = JsString.trim (input st)
            ∧ text t' ≠ []
            ∧ (∀ c r, text t' = c :: r -> JsString.is_white_space c = false)
            ∧ (∀ c, last (text t') = Some c -> JsString.is_white_space c = false)
            ∧ (length (text t') <= length (input st))%nat) as Hnew.
  { intros t' Ht'. rewrite Ht'. split_and!; [done|done| | |].
    - apply TrimFacts.trim_head.
    - apply TrimFacts.trim_last.
    - apply TrimFacts.trim_length. }
  rewrite handleSave_state in Ht by done. simpl in Ht.
  destruct (editing (editingId st)).
  - unfold edit_text in Ht. apply list_elem_of_fmap in Ht as (t0 & -> & Ht0).
    case_bool_decide; [right; by apply Hnew|by left].
  - unfold prepend_new in Ht. apply elem_of_cons in Ht as [->|Ht]; [|by left].
    right. by apply Hnew.
Qed.

Lemma saved_text_is_trimmed_witness :
  let e := {| random36 := js "0.4fzyo82mvyr"; now := 1700000000000 |} in
  let a := {| id := js "a"; text := js "Buy milk"; completed := true |} in
  let st := {| todos := [a]; modalVisible := true; input := js "  Walk dog ";
               editingId := None |} in
  let t := {| id := js "4fzyo82m1700000000000"; text := js "Walk dog";
              completed := false |} in
  t ∈ [a]
  ∨ (text t = JsString.trim (input st)
     ∧ text t ≠ []
     ∧ (∀ c r, text t = c :: r -> JsString.is_white_space c = false)
     ∧ (∀ c, last (text t) = Some c -> JsString.is_white_space c = false)
     ∧ (length (text t) <= length (input st))%nat).
Proof.
  intros e a st t. apply (saved_text_is_trimmed e st t).
  vm_compute. left.
Defined.

(** ** Sessions *)

Lemma run_cons ev evs w : run (ev :: evs) w = run evs (step ev w).
Proof. reflexivity. Qed.

Lemma run_app evs1 evs2 w : run (evs1 ++ evs2) w = run evs2 (run evs1 w).
Proof. unfold run. apply foldl_app. Qed.

Lemma tidy_new e s : JsString.trim s ≠ [] ->
  tidy {| id := uuid e; text := JsString.trim s; completed := false |}.
Proof.
  intros Hs. split_and!; [apply uuid_nonempty|done|apply TrimFacts.trim_idemp].
Qed.

Lemma tidy_dispatch ev st :
  Forall tidy (todos st) -> Forall tidy (todos (dispatch ev st)).
Proof.
  intros Hst.
  assert (∀ e, Forall tidy (todos (handleSave e st))) as Hsave.
  { intros e. destruct (decide (JsString.trim (input st) = [])) as [Hs|Hs].
    { by rewrite handleSave_blank. }
    rewrite handleSave_state by done. simpl.
    destruct (editing (editingId st)).
    - unfold edit_text. apply Forall_fmap. eapply Forall_impl; [exact Hst|].
      intros t (Hi & Hx & Ht). simpl. case_bool_decide; [|done].
      split_and!; [done|done|apply TrimFacts.trim_idemp].
    - apply Forall_cons. split; [by apply tidy_new|done]. }
  destruct ev as [|item|item|item|s|e|e| |]; simpl; try done.
  - unfold flip_completed. apply Forall_fmap. eapply Forall_impl; [exact Hst|].
    intros t Ht. simpl. by case_bool_decide.
  - unfold remove_id. apply Forall_forall. intros t [_ Ht]%list_elem_of_filter.
    by apply (proj1 (Forall_forall _ _) Hst).
  - by destruct (saveDisabled st).
Qed.

Lemma run_state evs w :
  (run evs w).1 = foldl (λ st ev, dispatch ev st) w.1 evs.
Proof.
  revert w. induction evs as [|ev evs IH]; intros w; [done|].
  rewrite run_cons, IH. reflexivity.
Qed.

(** X3: through every sequence of events, the todos keep a non-empty id
    and a non-empty text that is its own trim; this holds in particular of
    every list built from the initial, empty one. *)
Theorem run_keeps_tidy (evs : list Event)
    (w : AppState * gmap (list N) (list N)) :
  Forall tidy (todos w.1) -> Forall tidy (todos (run evs w).1).
Proof.
  revert w. induction evs as [|ev evs IH]; intros w Hw; [done|].
  rewrite run_cons. apply IH. by apply tidy_dispatch.
Qed.

Lemma run_keeps_tidy_witness :
  let e := {| random36 := js "0.4fzyo82mvyr"; now := 1700000000000 |} in
  let new := {| id := js "4fzyo82m1700000000000"; text := js "Walk dog";
                completed := false |} in
  Forall tidy
    (todos (run [PressAdd; ChangeText (js " Walk dog "); PressSave e;
                 PressToggle new; PressEdit new; ChangeText (js "  ");
                 SubmitEditing e; PressCancel]
              (initial, ∅)).1).
Proof.
  intros e new. apply run_keeps_tidy. simpl. constructor.
Defined.

(** X4: in a list with distinct ids whose todos are tidy, opening a todo of
    the list for editing and saving at once, without typing, leaves the list
    as it was and closes the modal. *)
Theorem edit_without_change (e : Env) (st : AppState) (t : Todo) :
  distinct_ids (todos st) -> Forall tidy (todos st) -> t ∈ todos st ->
  dispatch (SubmitEditing e) (dispatch (PressEdit t) st)
  = {| todos := todos st; modalVisible := false; input := []; editingId := None |}.
Proof.
  intros Hnd Htidy Ht.
  destruct (proj1 (Forall_forall _ _) Htidy t Ht) as (Hid & Htext & Htrim).
  simpl. rewrite handleSave_state by (simpl; congruence).
  simpl. destruct (id t) as [|c i] eqn:Ei; [done|]. simpl. f_equal.
  rewrite Htrim. apply list_elem_of_split in Ht as (l1 & l2 & Hl).
  rewrite Hl in Hnd |- *. unfold edit_text.
  rewrite (upd_split (λ t0, {| id := id t0; text := text t;
                               completed := completed t0 |}) (c :: i)); try done.
  by destruct t.
Qed.

Lemma edit_without_change_witness :
  let e := {| random36 := js "0.4fzyo82mvyr"; now := 1700000000000 |} in
  let a := {| id := js "a"; text := js "Buy milk"; completed := true |} in
  let b := {| id := js "b"; text := js "Walk dog"; completed := false |} in
  let st := {| todos := [b; a]; modalVisible := false; input := js "left over";
               editingId := Some (js "b") |} in
  dispatch (SubmitEditing e) (dispatch (PressEdit a) st)
  = {| todos := [b; a]; modalVisible := false; input := []; editingId := None |}.
Proof.
  intros e a b st. apply (edit_without_change e st a).
  - unfold distinct_ids. vm_compute. apply NoDup_ListNoDup.
    repeat constructor; simpl; intuition discriminate.
  - repeat constructor; vm_compute; discriminate.
  - apply list_elem_of_In. simpl. auto.
Defined.

(** X5: adding is not affected by an earlier edit: whatever the state
    (an edit may have been cancelled, which keeps [editingId] and the input),
    pressing the add button, typing a text whose trim is not empty and
    saving prepends a new todo and changes no other. *)
Theorem add_after_anything (e : Env) (s : jsstring) (st : AppState) :
  JsString.trim s ≠ [] ->
  dispatch (SubmitEditing e) (dispatch (ChangeText s) (dispatch PressAdd st))
  = {| todos := {| id := uuid e; text := JsString.trim s; completed := false |}
                :: todos st;
       modalVisible := false; input := []; editingId := None |}.
Proof. intros Hs. simpl. by rewrite handleSave_state. Qed.

Lemma add_after_anything_witness :
  let e := {| random36 := js "0.4fzyo82mvyr"; now := 1700000000000 |} in
  let a := {| id := js "a"; text := js "Buy milk"; completed := true |} in
  let st := dispatch PressCancel (dispatch (ChangeText (js "Buy oat milk"))
              (dispatch (PressEdit a)
                 {| todos := [a]; modalVisible := false; input := [];
                    editingId := None |})) in
  editingId st = Some (js "a")
  ∧ dispatch (SubmitEditing e) (dispatch (ChangeText (js "Walk dog "))
                                  (dispatch PressAdd st))
    = {| todos := [ {| id := js "4fzyo82m1700000000000"; text := js "Walk dog";
                       completed := false |}; a ];
         modalVisible := false; input := []; editingId := None |}.
Proof.
  intros e a st. split; [reflexivity|].
  exact (add_after_anything e (js "Walk dog ") st ltac:(vm_compute; discriminate)).
Defined.

Lemma modalTitle_editing st :
  (modalTitle st = js "Edit Todo" ↔ editing (editingId st) = true)
  ∧ (modalTitle st = js "Add Todo" ↔ editing (editingId st) = false).
Proof. unfold modalTitle. destruct (editing (editingId st)); by split. Qed.

(** X6: the modal announces what a save does.  With an input whose trim is
    not empty: under the title Edit Todo (and the label Save) a save keeps
    the ids, the flags and the length of the list; under the title Add Todo
    (and the label Add) it adds one todo in front and keeps the others. *)
Theorem modal_announces_save (e : Env) (st : AppState) :
  JsString.trim (input st) ≠ [] ->
  (modalTitle st = js "Edit Todo" ->
     saveLabel st = js "Save"
     ∧ id <$> todos (handleSave e st) = id <$> todos st
     ∧ completed <$> todos (handleSave e st) = completed <$> todos st)
  ∧ (modalTitle st = js "Add Todo" ->
     saveLabel st = js "Add"
     ∧ ∃ t, todos (handleSave e st) = t :: todos st).
Proof.
  intros Hs. rewrite handleSave_state by done. unfold saveLabel. simpl. split.
  - intros ->%modalTitle_editing. split_and!; [done| |].
    + apply (upd_ids (λ t, {| id := id t; text := JsString.trim (input st);
                              completed := completed t |})). done.
    + unfold edit_text. rewrite <- list_fmap_compose. apply list_fmap_ext.
      intros _ t _. simpl. by case_bool_decide.
  - intros ->%modalTitle_editing. split; [done|]. by eexists.
Qed.

Lemma modal_announces_save_witness :
  let e := {| random36 := js "0.4fzyo82mvyr"; now := 1700000000000 |} in
  let a := {| id := js "a"; text := js "Buy milk"; completed := true |} in
  let st1 := dispatch (ChangeText (js "Buy oat milk"))
               (dispatch (PressEdit a) {| todos := [a]; modalVisible := false;
                                          input := []; editingId := None |}) in
  let st2 := dispatch (ChangeText (js "Walk dog"))
               (dispatch PressAdd st1) in
  (saveLabel st1 = js "Save"
   ∧ id <$> todos (handleSave e st1) = id <$> todos st1
   ∧ completed <$> todos (handleSave e st1) = completed <$> todos st1)
  ∧ (saveLabel st2 = js "Add" ∧ ∃ t, todos (handleSave e st2) = t :: todos st2).
Proof.
  intros e a st1 st2. split.
  - apply (proj1 (modal_announces_save e st1 ltac:(vm_compute; discriminate))).
    reflexivity.
  - apply (proj2 (modal_announces_save e st2 ltac:(vm_compute; discriminate))).
    reflexivity.
Defined.

(** ** The store and the storage *)

Lemma dispatch_keeps_todos ev st :
  sets_todos ev st = false -> todos (dispatch ev st) = todos st.
Proof.
  destruct ev as [|item|item|item|s|e|e| |]; simpl; try done.
  - intros H%negb_false_iff%bool_decide_eq_true. by rewrite handleSave_blank.
  - intros H%negb_false_iff%bool_decide_eq_true.
    destruct (saveDisabled st); [done|]. by rewrite handleSave_blank.
Qed.

Lemma in_sync_step ev w : in_sync w -> in_sync (step ev w).
Proof.
  unfold in_sync, step. intros Hw. simpl.
  destruct (sets_todos ev w.1) eqn:E.
  - unfold persist, setItem. apply lookup_insert_eq.
  - by rewrite dispatch_keeps_todos.
Qed.

Lemma in_sync_run evs w : in_sync w -> in_sync (run evs w).
Proof.
  revert w. induction evs as [|ev evs IH]; intros w Hw; [done|].
  rewrite run_cons. by apply IH, in_sync_step.
Qed.

Lemma step_other_keys ev w :
  delete STORAGE_KEY (step ev w).2 = delete STORAGE_KEY w.2.
Proof.
  unfold step. simpl. destruct (sets_todos ev w.1); [|done].
  unfold persist, setItem. apply delete_insert_eq.
Qed.

Lemma run_other_keys evs w :
  delete STORAGE_KEY (run evs w).2 = delete STORAGE_KEY w.2.
Proof.
  revert w. induction evs as [|ev evs IH]; intros w; [done|].
  rewrite run_cons, IH. apply step_other_keys.
Qed.

(** X8: once the stored text is the serialization of the list in memory, it
    stays so through every sequence of events, and no event touches another
    key: at the end the storage is the one of the start with the
    serialization of the final list under the key, whatever happened in
    between. *)
Theorem run_keeps_in_sync (evs : list Event)
    (w : AppState * gmap (list N) (list N)) :
  in_sync w ->
  in_sync (run evs w)
  ∧ delete STORAGE_KEY (run evs w).2 = delete STORAGE_KEY w.2
  ∧ (run evs w).2 = persist (todos (run evs w).1) w.2.
Proof.
  intros Hw. pose proof (in_sync_run evs w Hw) as Hsync.
  pose proof (run_other_keys evs w) as Hother.
  split_and!; [done|done|].
  unfold persist, setItem. apply map_eq. intros k.
  destruct (decide (k = STORAGE_KEY)) as [->|Hk].
  - by rewrite lookup_insert_eq.
  - rewrite lookup_insert_ne by done.
    rewrite <- (lookup_delete_ne (run evs w).2 STORAGE_KEY k) by done.
    rewrite Hother. by rewrite lookup_delete_ne.
Qed.

Lemma run_keeps_in_sync_witness :
  let e := {| random36 := js "0.4fzyo82mvyr"; now := 1700000000000 |} in
  let new := {| id := js "4fzyo82m1700000000000"; text := js "Walk dog";
                completed := false |} in
  let w := (initial, ({[ STORAGE_KEY := js "[]"; js "other" := js "kept" ]}
                       : gmap (list N) (list N))) in
  let w' := run [PressAdd; ChangeText (js " Walk dog "); PressSave e;
                 PressToggle new] w in
  in_sync w' ∧ delete STORAGE_KEY w'.2 = delete STORAGE_KEY w.2
  ∧ w'.2 = persist (todos w'.1) w.2.
Proof.
  intros e new w w'. apply run_keeps_in_sync.
  unfold in_sync. vm_compute. reflexivity.
Defined.

Lemma in_sync_load w : in_sync w -> loadTodos w.2 = Typed (todos w.1).
Proof.
  unfold in_sync, loadTodos, getItem, loadTodos_from. intros ->.
  rewrite (deserialize_truthy _ _ (deserialize_stringify (todos w.1))).
  rewrite parse_stringify. unfold loaded_of_json.
  by rewrite as_todos_json_of_todos.
Qed.

Lemma loadTodos_from_sets r prev :
  loadTodos_from r prev
  = match loadTodos_sets r with
    | Some v => loaded_of_json v
    | None => Typed prev
    end.
Proof.
  destruct r as [|[data|]]; try done. simpl.
  destruct (JsString.truthy data); [|done]. by destruct (JSON.parse data).
Qed.

Lemma in_sync_mount w :
  in_sync w ->
  mount (getItem STORAGE_KEY w.2) w.2
  = Some ({| todos := todos w.1; modalVisible := false; input := [];
             editingId := None |}, w.2).
Proof.
  intros Hw. unfold mount, getItem, loadTodos_sets. rewrite Hw.
  rewrite (deserialize_truthy _ _ (deserialize_stringify (todos w.1))).
  rewrite parse_stringify, as_todos_json_of_todos. simpl. do 2 f_equal.
  unfold persist, setItem. rewrite insert_insert_eq. by apply insert_id.
Qed.

(** X9: restarting after any session restores the list: when the stored
    text is in step with the list, then after every sequence of events
    [loadTodos] on the storage yields the list in memory. *)
Theorem restart_restores (evs : list Event)
    (w : AppState * gmap (list N) (list N)) :
  in_sync w -> loadTodos (run evs w).2 = Typed (todos (run evs w).1).
Proof. intros Hw%(in_sync_run evs). by apply in_sync_load. Qed.

Lemma restart_restores_witness :
  let e := {| random36 := js "0.4fzyo82mvyr"; now := 1700000000000 |} in
  let new := {| id := js "4fzyo82m1700000000000"; text := js "Walk dog";
                completed := false |} in
  let w := (initial, ({[ STORAGE_KEY := js "[]" ]} : gmap (list N) (list N))) in
  let w' := run [PressAdd; ChangeText (js " Walk dog "); PressSave e;
                 PressToggle new; PressAdd; ChangeText (js "x")] w in
  loadTodos w'.2
  = Typed [ {| id := js "4fzyo82m1700000000000"; text := js "Walk dog";
               completed := true |} ].
Proof.
  intros e new w w'.
  exact (restart_restores _ w ltac:(unfold in_sync; vm_compute; reflexivity)).
Defined.

(** X22: mounting again on a storage that is in step with the list, the
    read being served before the effect writes, gives the initial state with
    that list (the modal closed, the input empty) and leaves the storage as
    it is, after every sequence of events. *)
Theorem remount_restores (evs : list Event)
    (w : AppState * gmap (list N) (list N)) :
  in_sync w ->
  mount (getItem STORAGE_KEY (run evs w).2) (run evs w).2
  = Some ({| todos := todos (run evs w).1; modalVisible := false;
             input := []; editingId := None |}, (run evs w).2).
Proof. intros Hw%(in_sync_run evs). by apply in_sync_mount. Qed.

Lemma remount_restores_witness :
  let e := {| random36 := js "0.4fzyo82mvyr"; now := 1700000000000 |} in
  let new := {| id := js "4fzyo82m1700000000000"; text := js "Walk dog";
                completed := false |} in
  let w := (initial, ({[ STORAGE_KEY := js "[]" ]} : gmap (list N) (list N))) in
  let w' := run [PressAdd; ChangeText (js " Walk dog "); PressSave e;
                 PressToggle new; PressAdd; ChangeText (js "x")] w in
  mount (getItem STORAGE_KEY w'.2) w'.2
  = Some ({| todos := todos w'.1; modalVisible := false;
             input := []; editingId := None |}, w'.2).
Proof.
  intros e new w w'.
  exact (remount_restores _ w ltac:(unfold in_sync; vm_compute; reflexivity)).
Defined.

(** X10: whenever [loadTodos] ends with a list of todos (no list is set,
    or the text read has the shape that the persistence effect writes),
    mounting gives a state with that list and a storage in step with it,
    whatever was stored before, and touches no other key. *)
Theorem mount_in_sync (r : ReadResult) (storage : gmap (list N) (list N))
    (l : list Todo) :
  loadTodos_from r (todos initial) = Typed l ->
  ∃ w, mount r storage = Some w
       ∧ todos w.1 = l
       ∧ in_sync w
       ∧ delete STORAGE_KEY w.2 = delete STORAGE_KEY storage.
Proof.
  rewrite loadTodos_from_sets. unfold mount.
  destruct (loadTodos_sets r) as [v|].
  - unfold loaded_of_json. destruct (as_todos v) as [l'|]; [|done].
    intros [= <-]. eexists. split; [reflexivity|].
    unfold in_sync, persist, setItem. simpl. split_and!.
    + done.
    + apply lookup_insert_eq.
    + by rewrite !delete_insert_eq.
  - intros [= <-]. eexists. split; [reflexivity|].
    unfold in_sync, persist, setItem. simpl. split_and!.
    + done.
    + apply lookup_insert_eq.
    + apply delete_insert_eq.
Qed.

Lemma mount_in_sync_witness :
  let storage := ({[ STORAGE_KEY := js "stale"; js "other" := js "kept" ]}
                   : gmap (list N) (list N)) in
  let r := Resolved
             (Some (blob " [{'id':'a','text':'Buy milk','completed':true} ] ")) in
  let a := {| id := js "a"; text := js "Buy milk"; completed := true |} in
  ∃ w, mount r storage = Some w
       ∧ todos w.1 = [a]
       ∧ in_sync w
       ∧ delete STORAGE_KEY w.2 = delete STORAGE_KEY storage.
Proof.
  intros storage r a. apply (mount_in_sync r storage [a]).
  vm_compute. reflexivity.
Defined.

(** X11: a start at which no list is set (the read is rejected, nothing is
    stored, or what is stored is empty or does not parse) leaves the list
    empty and overwrites what was stored under the key by the text of the
    empty array: the effect on [[todos]] has run on the initial list. *)
Theorem mount_overwrites (r : ReadResult) (storage : gmap (list N) (list N)) :
  r = Rejected ∨ r = Resolved None
  ∨ (∃ data, r = Resolved (Some data) ∧ JSON.parse data = None) ->
  ∃ written,
    mount r storage = Some (initial, written)
    ∧ written !! STORAGE_KEY = Some (js "[]")
    ∧ delete STORAGE_KEY written = delete STORAGE_KEY storage.
Proof.
  intros Hr. exists (persist [] storage).
  assert (loadTodos_sets r = None) as Hsets.
  { destruct Hr as [->|[->|(data & -> & Hp)]]; try done.
    simpl. by destruct (JsString.truthy data). }
  unfold mount. rewrite Hsets. split_and!; [done| |].
  - unfold persist, setItem. by rewrite lookup_insert_eq.
  - unfold persist, setItem. apply delete_insert_eq.
Qed.

Lemma mount_overwrites_witness :
  let a := {| id := js "a"; text := js "Buy milk"; completed := true |} in
  let storage := persist [a] ∅ in
  ∃ written,
    mount Rejected storage = Some (initial, written)
    ∧ written !! STORAGE_KEY = Some (js "[]")
    ∧ delete STORAGE_KEY written = delete STORAGE_KEY storage.
Proof.
  intros a storage. apply (mount_overwrites Rejected storage). by left.
Defined.

(** ** How the operations compose *)

Lemma flip_completed_ids i l : id <$> flip_completed i l = id <$> l.
Proof.
  apply (upd_ids (λ t, {| id := id t; text := text t;
                          completed := negb (completed t) |})). done.
Qed.

Lemma edit_text_ids i s l : id <$> edit_text i s l = id <$> l.
Proof.
  apply (upd_ids (λ t, {| id := id t; text := s; completed := completed t |})).
  done.
Qed.

Lemma remove_id_count i l :
  (length (remove_id i l) + length (filter (λ t, id t = i) l))%nat = length l.
Proof.
  unfold remove_id. induction l as [|t l IH]; [done|].
  destruct (decide (id t = i)) as [E|E].
  - rewrite filter_cons_False by (intros H; by apply H).
    rewrite filter_cons_True by done. simpl. lia.
  - rewrite filter_cons_True by done.
    rewrite filter_cons_False by done. simpl. lia.
Qed.

(** X12: Delete keeps exactly the todos whose id differs, in their order:
    what is left is a sublist of the list, holds no todo with the id, and
    lacks as many todos as had the id; so splitting the list splits the
    deletion.  Deleting twice is deleting once, and deletions commute. *)
Theorem Delete_algebra (i j : jsstring) (l : list Todo) :
  (∀ t, t ∈ Delete i l ↔ t ∈ l ∧ id t ≠ i)
  ∧ Delete i l `sublist_of` l
  ∧ (length (Delete i l) + length (filter (λ t, id t = i) l))%nat = length l
  ∧ (∀ l1 l2, l = l1 ++ l2 -> Delete i l = Delete i l1 ++ Delete i l2)
  ∧ (Forall (λ t, id t ≠ i) l -> Delete i l = l)
  ∧ Delete i (Delete i l) = Delete i l
  ∧ Delete i (Delete j l) = Delete j (Delete i l).
Proof.
  unfold Delete. split_and!.
  - intros t. unfold remove_id. rewrite list_elem_of_filter. tauto.
  - apply sublist_filter.
  - apply remove_id_count.
  - intros l1 l2 ->. apply filter_app.
  - intros Hall. apply remove_id_absent.
    intros (t & Hi & Ht)%list_elem_of_fmap.
    by apply (proj1 (Forall_forall _ _) Hall t Ht).
  - unfold remove_id. rewrite list_filter_filter. apply list_filter_iff. tauto.
  - unfold remove_id. rewrite !list_filter_filter. apply list_filter_iff. tauto.
Qed.

Lemma Delete_algebra_witness :
  let d := {| id := js "d"; text := js "Twice"; completed := false |} in
  let a := {| id := js "a"; text := js "Buy milk"; completed := true |} in
  Delete (js "z") [d; d] = [d; d]
  ∧ Delete (js "a") ([d; a] ++ [a; d]) = Delete (js "a") [d; a] ++ Delete (js "a") [a; d]
  ∧ Delete (js "a") ([d; a] ++ [a; d]) = [d; d].
Proof.
  intros d a.
  destruct (Delete_algebra (js "z") (js "z") [d; d]) as (_ & _ & _ & _ & Hkeep & _).
  destruct (Delete_algebra (js "a") (js "a") ([d; a] ++ [a; d]))
    as (_ & _ & _ & Hsplit & _).
  split_and!.
  - apply Hkeep. repeat constructor; vm_compute; discriminate.
  - by apply Hsplit.
  - rewrite (Hsplit [d; a] [a; d] eq_refl). reflexivity.
Defined.

(** X13: Toggle changes nothing but flags, and Edit (at a non-empty id, with
    a text whose trim is not empty) nothing but texts: the ids, their order
    and the length of the list are kept, Toggle keeps every text and Edit
    every flag. *)
Theorem Toggle_Edit_frame (e : Env) (i s : jsstring) (l : list Todo) :
  (id <$> Toggle i l = id <$> l
   ∧ text <$> Toggle i l = text <$> l
   ∧ length (Toggle i l) = length l)
  ∧ (i ≠ [] -> JsString.trim s ≠ [] ->
     id <$> Edit e i s l = id <$> l
     ∧ completed <$> Edit e i s l = completed <$> l
     ∧ length (Edit e i s l) = length l).
Proof.
  split.
  - unfold Toggle. split_and!.
    + apply flip_completed_ids.
    + unfold flip_completed. rewrite <- list_fmap_compose. apply list_fmap_ext.
      intros _ t _. simpl. by case_bool_decide.
    + unfold flip_completed. apply length_fmap.
  - intros Hi Hs. rewrite Edit_edit_text by done. split_and!.
    + apply edit_text_ids.
    + unfold edit_text. rewrite <- list_fmap_compose. apply list_fmap_ext.
      intros _ t _. simpl. by case_bool_decide.
    + unfold edit_text. apply length_fmap.
Qed.

Lemma Toggle_Edit_frame_witness :
  let e := {| random36 := js "0.4fzyo82mvyr"; now := 1700000000000 |} in
  let a := {| id := js "a"; text := js "Buy milk"; completed := true |} in
  let b := {| id := js "b"; text := js "Walk dog"; completed := false |} in
  id <$> Edit e (js "a") (js "Buy oat milk") [b; a] = id <$> [b; a]
  ∧ completed <$> Edit e (js "a") (js "Buy oat milk") [b; a] = completed <$> [b; a]
  ∧ length (Edit e (js "a") (js "Buy oat milk") [b; a]) = length [b; a].
Proof.
  intros e a b.
  apply (proj2 (Toggle_Edit_frame e (js "a") (js "Buy oat milk") [b; a]));
    vm_compute; discriminate.
Defined.

Lemma flip_flip_comm i j l :
  flip_completed i (flip_completed j l) = flip_completed j (flip_completed i l).
Proof.
  unfold flip_completed. rewrite <- !list_fmap_compose. apply list_fmap_ext.
  intros _ t _. simpl. repeat (case_bool_decide; simpl); try done.
Qed.

Lemma remove_flip_comm i j l :
  remove_id j (flip_completed i l) = flip_completed i (remove_id j l).
Proof.
  unfold remove_id, flip_completed. induction l as [|t l IH]; [done|].
  rewrite fmap_cons.
  destruct (decide (id t = j)) as [E|E].
  - rewrite !filter_cons_False; [done|by intros H; apply H|].
    intros H. apply H. by case_bool_decide.
  - rewrite !filter_cons_True; [|done|by case_bool_decide].
    rewrite fmap_cons. by f_equal.
Qed.

(** X14: the order of a toggle and another toggle, or of a toggle and a
    deletion, does not matter; and toggling an id that has just been deleted
    changes nothing. *)
Theorem Toggle_Delete_commute (i j : jsstring) (l : list Todo) :
  Toggle i (Toggle j l) = Toggle j (Toggle i l)
  ∧ Delete j (Toggle i l) = Toggle i (Delete j l)
  ∧ Toggle i (Delete i l) = Delete i l.
Proof.
  unfold Toggle, Delete. split_and!.
  - apply flip_flip_comm.
  - apply remove_flip_comm.
  - apply (upd_absent (λ t, {| id := id t; text := text t;
                               completed := negb (completed t) |})).
    intros (t & Hi & Ht)%list_elem_of_fmap.
    by apply list_elem_of_filter in Ht as [Hne _].
Qed.

(** X15: of two edits of the same non-empty id the last one decides: the
    list is the one the second edit alone gives. *)
Theorem Edit_last_wins (e1 e2 : Env) (i s1 s2 : jsstring) (l : list Todo) :
  i ≠ [] -> JsString.trim s1 ≠ [] -> JsString.trim s2 ≠ [] ->
  Edit e2 i s2 (Edit e1 i s1 l) = Edit e2 i s2 l.
Proof.
  intros Hi H1 H2. rewrite !Edit_edit_text by done. unfold edit_text.
  rewrite <- list_fmap_compose. apply list_fmap_ext. intros _ t _. simpl.
  destruct (decide (id t = i)) as [E|E].
  - rewrite !(bool_decide_eq_true_2 (id t = i)) by done. simpl.
    by rewrite ?(bool_decide_eq_true_2 (id t = i)).
  - by rewrite !(bool_decide_eq_false_2 (id t = i)).
Qed.

Lemma Edit_last_wins_witness :
  let e := {| random36 := js "0.4fzyo82mvyr"; now := 1700000000000 |} in
  let a := {| id := js "a"; text := js "Buy milk"; completed := true |} in
  let b := {| id := js "b"; text := js "Walk dog"; completed := false |} in
  Edit e (js "a") (js "Buy soy milk") (Edit e (js "a") (js "Buy oat milk") [b; a])
  = Edit e (js "a") (js "Buy soy milk") [b; a].
Proof.
  intros e a b.
  apply (Edit_last_wins e e (js "a") (js "Buy oat milk") (js "Buy soy milk") [b; a]);
    vm_compute; discriminate.
Defined.

(** X16: a todo that has just been created, under an id that the list did
    not hold, is the one the next operation on that id addresses: Delete
    gives the prior list back, Toggle marks the new todo completed and Edit
    replaces its text, the prior list staying as it was. *)
Theorem new_todo_addressed (e e' : Env) (s s' : jsstring) (l : list Todo) :
  JsString.trim s ≠ [] -> uuid e ∉ id <$> l ->
  Delete (uuid e) (Create e s l) = l
  ∧ Toggle (uuid e) (Create e s l)
    = {| id := uuid e; text := JsString.trim s; completed := true |} :: l
  ∧ (JsString.trim s' ≠ [] ->
     Edit e' (uuid e) s' (Create e s l)
     = {| id := uuid e; text := JsString.trim s'; completed := false |} :: l).
Proof.
  intros Hs Hfresh. rewrite Create_cons by done. unfold prepend_new. split_and!.
  - unfold Delete, remove_id. rewrite filter_cons_False by (intros H; by apply H).
    by apply remove_id_absent.
  - unfold Toggle, flip_completed. rewrite fmap_cons.
    rewrite bool_decide_eq_true_2 by done. simpl. f_equal.
    by apply (upd_absent (λ t, {| id := id t; text := text t;
                                  completed := negb (completed t) |})).
  - intros Hs'. rewrite Edit_edit_text by (done || apply uuid_nonempty).
    unfold edit_text. rewrite fmap_cons.
    rewrite bool_decide_eq_true_2 by done. simpl. f_equal.
    by apply (upd_absent (λ t, {| id := id t; text := JsString.trim s';
                                  completed := completed t |})).
Qed.

Lemma new_todo_addressed_witness :
  let e := {| random36 := js "0.4fzyo82mvyr"; now := 1700000000000 |} in
  let a := {| id := js "a"; text := js "Buy milk"; completed := true |} in
  Delete (uuid e) (Create e (js "Walk dog") [a]) = [a]
  ∧ Toggle (uuid e) (Create e (js "Walk dog") [a])
    = [ {| id := js "4fzyo82m1700000000000"; text := js "Walk dog";
           completed := true |}; a ].
Proof.
  intros e a.
  destruct (new_todo_addressed e e (js "Walk dog") [] [a]) as (HD & HT & _).
  - vm_compute; discriminate.
  - vm_compute. intros H%list_elem_of_In. simpl in H. intuition discriminate.
  - split; [exact HD|exact HT].
Defined.

(** ** Generated ids *)

Lemma of_ascii_inj s1 s2 : js s1 = js s2 -> s1 = s2.
Proof.
  unfold JsString.of_ascii. intros H.
  rewrite <- (string_of_list_ascii_of_string s1), <- (string_of_list_ascii_of_string s2).
  f_equal. revert H. generalize (list_ascii_of_string s1) (list_ascii_of_string s2).
  induction l as [|a l IH]; intros [|b k]; simpl; try done.
  intros [= Hab Hlk]. f_equal; [|by apply IH].
  by rewrite <- (ascii_N_embedding a), <- (ascii_N_embedding b), Hab.
Qed.

Lemma of_integer_inj z1 z2 :
  JsString.of_integer z1 = JsString.of_integer z2 -> z1 = z2.
Proof.
  unfold JsString.of_integer. intros H%of_ascii_inj.
  apply DecimalZ.to_int_inj.
  assert (∀ z, NilZero.int_of_string (NilZero.string_of_int (Z.to_int z))
               = Some (Z.to_int z)) as Hisi.
  { intros z. apply NilZero.isi.
    - destruct z; simpl; [done|intros [= E]|done].
      by apply DecimalPos.Unsigned.to_uint_nonnil in E.
    - destruct z; simpl; [done|done|intros [= E]].
      by apply DecimalPos.Unsigned.to_uint_nonnil in E. }
  pose proof (Hisi z1) as H1. rewrite H, Hisi in H1. congruence.
Qed.

(** X17: [uuid] never returns the empty string, and two calls whose random
    fragments have the same length (eight code units, as a rule) return
    different ids as soon as they differ in the fragment or in the clock. *)
Theorem uuid_distinct (e1 e2 : Env) :
  uuid e1 ≠ []
  ∧ (length (JsString.substring 2 10 (random36 e1))
     = length (JsString.substring 2 10 (random36 e2)) ->
     now e1 ≠ now e2
     ∨ JsString.substring 2 10 (random36 e1) ≠ JsString.substring 2 10 (random36 e2) ->
     uuid e1 ≠ uuid e2).
Proof.
  split; [apply uuid_nonempty|].
  intros Hlen Hdiff Heq. unfold uuid in Heq.
  apply app_inj_1 in Heq as [Hfrag Hnow]; [|done].
  apply of_integer_inj in Hnow. tauto.
Qed.

Lemma uuid_distinct_witness :
  let e1 := {| random36 := js "0.4fzyo82mvyr"; now := 1700000000000 |} in
  let e2 := {| random36 := js "0.4fzyo82mvyr"; now := 1700000000001 |} in
  uuid e1 ≠ uuid e2.
Proof.
  intros e1 e2. apply (proj2 (uuid_distinct e1 e2)); [reflexivity|].
  left. discriminate.
Defined.

Lemma distinct_dispatch ev st :
  distinct_ids (todos st) -> fresh_for ev st ->
  distinct_ids (todos (dispatch ev st)).
Proof.
  intros Hnd Hfresh.
  assert (∀ e, (editing (editingId st) = false -> uuid e ∉ id <$> todos st) ->
               distinct_ids (todos (handleSave e st))) as Hsave.
  { intros e He. destruct (decide (JsString.trim (input st) = [])) as [Hs|Hs].
    { by rewrite handleSave_blank. }
    rewrite handleSave_state by done. simpl. unfold distinct_ids.
    destruct (editing (editingId st)).
    - by rewrite edit_text_ids.
    - unfold prepend_new. rewrite fmap_cons. apply NoDup_cons. auto. }
  destruct ev as [|item|item|item|s|e|e| |]; simpl in *; try done.
  - unfold distinct_ids. by rewrite flip_completed_ids.
  - unfold distinct_ids, remove_id. eapply sublist_NoDup; [exact Hnd|].
    apply fmap_sublist, sublist_filter.
  - by apply Hsave.
  - destruct (saveDisabled st); [done|]. by apply Hsave.
Qed.

(** X18: the keys of the rows stay pairwise distinct through every sequence
    of events in which each save that adds a todo is given an id that the
    list does not hold. *)
Theorem keys_stay_distinct (evs : list Event)
    (w : AppState * gmap (list N) (list N)) :
  NoDup (listKeys w.1) -> fresh_run evs w.1 -> NoDup (listKeys (run evs w).1).
Proof.
  revert w. induction evs as [|ev evs IH]; intros w Hnd Hfresh; [done|].
  destruct Hfresh as [Hev Hevs]. rewrite run_cons. apply IH.
  - by apply distinct_dispatch.
  - exact Hevs.
Qed.

Lemma keys_stay_distinct_witness :
  let e1 := {| random36 := js "0.4fzyo82mvyr"; now := 1700000000000 |} in
  let e2 := {| random36 := js "0.k3x9q"; now := 1700000000123 |} in
  NoDup (listKeys (run [PressAdd; ChangeText (js "Buy milk"); PressSave e1;
                        PressAdd; ChangeText (js "Walk dog"); SubmitEditing e2]
                     (initial, ∅)).1).
Proof.
  intros e1 e2. apply keys_stay_distinct.
  - apply NoDup_nil_2.
  - simpl. split_and!; try done.
    + intros _. apply not_elem_of_nil.
    + intros _. vm_compute. intros H%list_elem_of_In. simpl in H.
      intuition discriminate.
Defined.

(** ** The stored text *)

Module StoredText.
Import JSON JSONFacts.

Abbreviation printable s := (Forall (λ c : N, 32 <= c) s).

Lemma hex_digit_printable d : 32 <= hex_digit d.
Proof. unfold hex_digit. destruct (d <? 10); lia. Qed.

Lemma quote_unit_printable c : printable (quote_unit c).
Proof.
  unfold quote_unit.
  repeat (match goal with
          | |- context [if ?c =? ?n then _ else _] =>
              destruct (c =? n); [repeat constructor; lia|]
          end).
  destruct (_ || _ || _) eqn:E.
  - unfold UnicodeEscape.
    repeat constructor; try lia; apply hex_digit_printable.
  - apply orb_false_iff in E as [E _]. apply orb_false_iff in E as [E _].
    apply N.ltb_ge in E. by repeat constructor.
Qed.

Lemma quote_units_printable s : printable (quote_units s).
Proof.
  remember (length s) as n eqn:Hn. revert s Hn.
  induction n as [n IH] using lt_wf_ind. intros s Hn.
  destruct s as [|c1 [|c2 rest]].
  - constructor.
  - apply quote_unit_printable.
  - rewrite quote_units_cons.
    destruct (is_leading_surrogate c1 && is_trailing_surrogate c2) eqn:E.
    + apply andb_true_iff in E as [E1 E2].
      unfold is_leading_surrogate, is_trailing_surrogate in E1, E2.
      rewrite andb_true_iff, !N.leb_le in E1, E2.
      repeat (constructor; [lia|]).
      apply (IH (length rest)); [subst n; simpl; lia|done].
    + apply Forall_app. split; [apply quote_unit_printable|].
      apply (IH (length (c2 :: rest))); [subst n; simpl; lia|done].
Qed.

Lemma QuoteJSONString_printable s : printable (QuoteJSONString s).
Proof.
  unfold QuoteJSONString. constructor; [lia|].
  apply Forall_app. split; [apply quote_units_printable|].
  by repeat constructor.
Qed.

Lemma join_comma_printable parts :
  Forall (λ p, printable p) parts -> printable (join_comma parts).
Proof.
  induction 1 as [|p ps Hp Hps IH]; [constructor|].
  rewrite join_comma_cons. destruct ps as [|p' ps]; [done|].
  apply Forall_app. split; [done|]. constructor; [lia|done].
Qed.

Lemma serialize_printable v : number_free v = true -> printable (serialize v).
Proof.
  induction v as [|b|x|s|vs IH|ms IH] using value_ind_nested; intros Hnf;
    try discriminate.
  - by vm_compute; repeat constructor.
  - destruct b; by vm_compute; repeat constructor.
  - apply QuoteJSONString_printable.
  - simpl in Hnf. apply number_free_elements in Hnf. cbn [serialize].
    constructor; [lia|]. apply Forall_app. split; [|by repeat constructor].
    apply join_comma_printable, Forall_fmap.
    apply Forall_forall. intros v Hv. simpl.
    apply (proj1 (Forall_forall _ _) IH v Hv).
    by apply (proj1 (Forall_forall _ _) Hnf).
  - simpl in Hnf. apply number_free_members in Hnf. cbn [serialize].
    constructor; [lia|]. apply Forall_app. split; [|by repeat constructor].
    apply join_comma_printable, Forall_fmap.
    apply Forall_forall. intros [k v] Hv. cbn [fst snd].
    apply Forall_app. split; [apply QuoteJSONString_printable|].
    constructor; [lia|].
    apply (proj1 (Forall_forall _ _) IH (k, v) Hv).
    by apply (proj1 (Forall_forall _ _) Hnf (k, v)).
Qed.

End StoredText.

(** X19: the text that the effect stores is an array on one line: it begins
    with an opening bracket, ends with the closing one, and holds no code
    unit below the space (control characters in ids and texts are written
    as escapes); in particular it is never the empty string, which
    [loadTodos] would skip. *)
Theorem stored_text_printable (l : list Todo) :
  Forall (λ c : N, 32 <= c) (JSON_stringify l)
  ∧ head (JSON_stringify l) = Some 91
  ∧ last (JSON_stringify l) = Some 93
  ∧ JsString.truthy (JSON_stringify l) = true.
Proof.
  split_and!.
  - apply StoredText.serialize_printable, number_free_json_of_todos.
  - reflexivity.
  - unfold JSON_stringify, json_of_todos. cbn [JSON.serialize].
    rewrite app_comm_cons. apply last_snoc.
  - reflexivity.
Qed.

(** X20: different lists are never stored as the same text. *)
Theorem stringify_injective (l1 l2 : list Todo) :
  l1 ≠ l2 -> JSON_stringify l1 ≠ JSON_stringify l2.
Proof.
  intros Hne Heq. apply Hne.
  pose proof (deserialize_stringify l1) as H1.
  rewrite Heq, deserialize_stringify in H1. congruence.
Qed.

Lemma stringify_injective_witness :
  let a := {| id := js "a"; text := js "x,y"; completed := true |} in
  let b := {| id := js "a"; text := js "x"; completed := true |} in
  let c := {| id := js "y"; text := []; completed := true |} in
  JSON_stringify [a] ≠ JSON_stringify [b; c].
Proof.
  intros a b c. apply stringify_injective. discriminate.
Defined.
